(** * gtimer: the hierarchical timing wheel of ilylx/gconv

    A shallow embedding of package [gtimer] (gtimer.go, gtimer_loop.go) and of
    [cmdenv.Get] (internal/cmdenv/cmdenv.go), with the properties of the
    dispatch loop, of the per-invocation job wrapper and of the default
    timer's configuration.

    Layout: the Go runtime notions the code relies on, the FIFO container,
    package [cmdenv], package [gtimer] (definitions), then the theorems. *)

From Stdlib Require Import Ascii.
From stdpp Require Import base numbers list strings functions gmap.

(** ** Go runtime notions *)

Module Go.
Local Open Scope Z_scope.

(** Two's complement wrap-around of [int64] arithmetic. *)
Definition wrap64 (z : Z) : Z := (z + 2 ^ 63) mod 2 ^ 64 - 2 ^ 63.

Definition MaxInt64 : Z := 2 ^ 63 - 1.
Definition MaxInt32 : Z := 2 ^ 31 - 1.

(** The values handed to [panic] that matter here: a string (the package
    panics with the untyped constant "exit"), an [error], or a run-time
    error raised by the language itself. *)
Inductive panic_val :=
| PString (s : string)
| PError (msg : string)
| PRuntime (msg : string).

#[global] Instance panic_val_eq_dec : EqDecision panic_val.
Proof. solve_decision. Defined.

(** How a call of a function without results ends. *)
Inductive outcome :=
| Returned
| Panicked (v : panic_val).

(** [a[i]] on a slice: an index outside [0, len a) is a run-time panic. *)
Definition index {A : Type} (a : list A) (i : Z) : option A :=
  if i <? 0 then None else a !! Z.to_nat i.

End Go.

(** ** container/glist *)

Module glist.
Section FIFO.
Context {A : Type}.

(** Modelled from the spec: glist.List, the ordered FIFO container behind a
    Slot (package container/glist is not available here). [PushBack]
    appends, [PopFront] removes and returns the oldest member ([nil], here
    [None], on an empty list), [Len] counts the members. *)
Definition PushBack (v : A) (l : list A) : list A := l ++ [v].

Definition PopFront (l : list A) : option A * list A :=
  match l with
  | [] => (None, [])
  | v :: rest => (Some v, rest)
  end.

Definition Len (l : list A) : Z := Z.of_nat (length l).

End FIFO.
End glist.

(** ** container/gtype *)

Module gtype.

(** Modelled from the spec: gtype.Int64.Add (package container/gtype is not
    available here), the atomic addition behind "Advance tickCounter by one
    (atomic)": the counter holds the sum, wrapped to [int64], and the call
    returns that new value, from which the current slot is identified. *)
Definition Int64_Add (v delta : Z) : Z := Go.wrap64 (v + delta).

End gtype.

(** ** Go's package regexp, for the patterns the code compiles *)

Module regexp.

(** A character class: one literal byte, or the dot, which matches any
    character but a newline. The two literals of the pattern at hand and the
    newline are ASCII, so matching byte by byte finds the same boundaries as
    matching rune by rune. *)
Inductive cls :=
| Lit (c : Ascii.ascii)
| Dot.

Definition newline : Ascii.ascii := Ascii.ascii_of_nat 10.

Definition cls_match (p : cls) (c : Ascii.ascii) : bool :=
  match p with
  | Lit a => bool_decide (a = c)
  | Dot => negb (bool_decide (c = newline))
  end.

(** The quantifiers: [x], [x{0,1}], [x+] (greedy), [x+?] (lazy). *)
Inductive quant :=
| Once
| Opt
| Plus
| PlusLazy.

(** Patterns: a quantified class, a concatenation, a capturing group with
    its number. *)
Inductive re :=
| Atom (q : quant) (p : cls)
| Cat (a b : re)
| Group (i : nat) (a : re).

(** Matching is leftmost-first: "the match begins as early as possible in
    the input, and among those it chooses the one that a backtracking
    search would have found first" (package regexp). The search is written
    with a continuation [k] that receives the rest of the input and the
    captures so far, and fails with [None]. *)
Section Backtrack.
Context {R : Type}.

Definition once (p : cls) (s : list Ascii.ascii) (caps : list (list Ascii.ascii))
    (k : list Ascii.ascii -> list (list Ascii.ascii) -> option R) : option R :=
  match s with
  | c :: r => if cls_match p c then k r caps else None
  | [] => None
  end.

Definition opt (p : cls) (s : list Ascii.ascii) (caps : list (list Ascii.ascii))
    (k : list Ascii.ascii -> list (list Ascii.ascii) -> option R) : option R :=
  match s with
  | c :: r =>
      if cls_match p c
      then match k r caps with Some x => Some x | None => k s caps end
      else k s caps
  | [] => k s caps
  end.

Fixpoint plus_greedy (p : cls) (s : list Ascii.ascii) (caps : list (list Ascii.ascii))
    (k : list Ascii.ascii -> list (list Ascii.ascii) -> option R) : option R :=
  match s with
  | c :: r =>
      if cls_match p c
      then match plus_greedy p r caps k with Some x => Some x | None => k r caps end
      else None
  | [] => None
  end.

Fixpoint plus_lazy (p : cls) (s : list Ascii.ascii) (caps : list (list Ascii.ascii))
    (k : list Ascii.ascii -> list (list Ascii.ascii) -> option R) : option R :=
  match s with
  | c :: r =>
      if cls_match p c
      then match k r caps with Some x => Some x | None => plus_lazy p r caps k end
      else None
  | [] => None
  end.

(** The text a sub-match consumed: what [s] has in front of its rest [s']. *)
Definition consumed (s s' : list Ascii.ascii) : list Ascii.ascii :=
  take (length s - length s') s.

Fixpoint run (r : re) (s : list Ascii.ascii) (caps : list (list Ascii.ascii))
    (k : list Ascii.ascii -> list (list Ascii.ascii) -> option R) : option R :=
  match r with
  | Atom Once p => once p s caps k
  | Atom Opt p => opt p s caps k
  | Atom Plus p => plus_greedy p s caps k
  | Atom PlusLazy p => plus_lazy p s caps k
  | Cat a b => run a s caps (fun s' caps' => run b s' caps' k)
  | Group i a => run a s caps (fun s' caps' => k s' (<[i := consumed s s']> caps'))
  end.

End Backtrack.

(** The leftmost match of a pattern with [n] groups: the whole match and
    the text of each group. *)
Fixpoint find (n : nat) (r : re) (s : list Ascii.ascii) : option (list (list Ascii.ascii)) :=
  match run r s (replicate (S n) [])
          (fun s' caps => Some (<[0%nat := consumed s s']> caps)) with
  | Some caps => Some caps
  | None =>
      match s with
      | [] => None
      | _ :: s' => find n r s'
      end
  end.

(** [Regexp.FindStringSubmatch]: [nil] when nothing matches. *)
Definition FindStringSubmatch (n : nat) (r : re) (s : string) : list string :=
  match find n r (String.list_ascii_of_string s) with
  | Some caps => String.string_of_list_ascii <$> caps
  | None => []
  end.

End regexp.

(** ** internal/cmdenv *)

Module cmdenv.
Local Open Scope Z_scope.

(** The dynamic values that reach [Get]: [nil], an [int] default, or the
    string of an option or of an environment variable. *)
Inductive value :=
| VNil
| VInt (n : Z)
| VString (s : string).

(** What [Get] reads of the process: [cmdOptions], the package's map of the
    command line options ([doInit] fills it from [os.Args]), and the
    environment behind [os.Getenv]. *)
Record Process := mkProcess {
  cmdOptions : gmap string string;
  environ : gmap string string
}.

(** [os.Getenv]: the empty string when the variable is not set. *)
Definition Getenv (p : Process) (key : string) : string :=
  default "" (environ p !! key).

(** [strings.Replace(s, old, new, -1)] for a non-empty [old]: every
    non-overlapping occurrence of [old], from the left, becomes [new].
    [skip] counts the bytes of a matched [old] still to drop. *)
Fixpoint replace_from (old new : string) (skip : nat) (s : string) : string :=
  match s with
  | EmptyString => EmptyString
  | String c r =>
      match skip with
      | S k => replace_from old new k r
      | O =>
          if String.prefix old s
          then (new +:+ replace_from old new (String.length old - 1) r)%string
          else String c (replace_from old new 0 r)
      end
  end.

Definition Replace (s old new : string) : string := replace_from old new 0 s.

Definition lower_byte (c : Ascii.ascii) : Ascii.ascii :=
  let n := Ascii.nat_of_ascii c in
  if (65 <=? n)%nat && (n <=? 90)%nat then Ascii.ascii_of_nat (n + 32) else c.

Definition upper_byte (c : Ascii.ascii) : Ascii.ascii :=
  let n := Ascii.nat_of_ascii c in
  if (97 <=? n)%nat && (n <=? 122)%nat then Ascii.ascii_of_nat (n - 32) else c.

Fixpoint map_bytes (f : Ascii.ascii -> Ascii.ascii) (s : string) : string :=
  match s with
  | EmptyString => EmptyString
  | String c r => String (f c) (map_bytes f r)
  end.

(** [strings.ToLower] and [strings.ToUpper] on the ASCII letters; the keys
    the packages pass are ASCII. *)
Definition ToLower (s : string) : string := map_bytes lower_byte s.
Definition ToUpper (s : string) : string := map_bytes upper_byte s.

(** [Get] (cmdenv.go, 38-53), before the final [gvar.New]: the value it
    wraps. *)
Definition Get (p : Process) (key : string) (def : list value) : value :=
  let value := match def with v :: _ => v | [] => VNil end in
  let cmdKey := ToLower (Replace key "_" ".") in
  match cmdOptions p !! cmdKey with
  | Some v => VString v
  | None =>
      let envKey := ToUpper (Replace key "." "_") in
      let v := Getenv p envKey in
      if decide (v <> ""%string) then VString v else value
  end.

(** The pattern of [doInit], [\-\-{0,1}(.+?)=(.+)]. *)
Definition reg : regexp.re :=
  regexp.Cat (regexp.Atom regexp.Once (regexp.Lit "-"%char))
    (regexp.Cat (regexp.Atom regexp.Opt (regexp.Lit "-"%char))
       (regexp.Cat (regexp.Group 1 (regexp.Atom regexp.PlusLazy regexp.Dot))
          (regexp.Cat (regexp.Atom regexp.Once (regexp.Lit "="%char))
             (regexp.Group 2 (regexp.Atom regexp.Plus regexp.Dot))))).

(** The body of the loop of [doInit] (cmdenv.go, 24-27) for one argument. *)
Definition doInit_arg (opts : gmap string string) (arg : string) : gmap string string :=
  let result := regexp.FindStringSubmatch 2 reg arg in
  if (1 <? length result)%nat
  then <[default ""%string (result !! 1%nat) := default ""%string (result !! 2%nat)]> opts
  else opts.

(** [doInit] (cmdenv.go, 21-29) on [os.Args]: the options it leaves in
    [cmdOptions], which starts empty. *)
Definition doInit (args : list string) : gmap string string :=
  foldl doInit_arg ∅ args.

(** The process as the package sees it after [init]. *)
Definition initialised (args : list string) (env : gmap string string) : Process :=
  mkProcess (doInit args) env.

End cmdenv.

(** ** Package gtimer: constants and shared state *)

Module gtimer.
Import Go glist.
Local Open Scope Z_scope.

Definition StatusReady : Z := 0.
Definition StatusRunning : Z := 1.
Definition StatusStopped : Z := 2.
Definition StatusReset : Z := 3.
Definition StatusClosed : Z := -1.
Definition gPanicExit : string := "exit".
Definition gDefaultTimes : Z := MaxInt32.
Definition gDefaultSlotNumber : Z := 10.
Definition gDefaultWheelInterval : Z := 50.
Definition gDefaultWheelLevel : Z := 6.
Definition gCmdenvKey : string := "gf.gtimer".

(** A [*Entry]: entries live on the heap and are shared, by address, between
    the slots, the dispatch loops and the goroutines that run their jobs. *)
Definition ptr := nat.

(** Modelled from the spec: the Entry record (gtimer_entry.go is not
    available here). [status] holds one of the [Status*] constants,
    [remainingRuns] the countdown of permitted executions. *)
Record Entry := mkEntry {
  status : Z;
  remainingRuns : Z;
  limitTimes : Z;
  singleton : bool;
  rawIntervalMs : Z
}.

(** The [wheel] struct as gtimer_loop.go uses it: [ticks] is the atomic tick
    counter, [number] the count of slots, [slots] the slice of lists. *)
Record wheel := mkWheel {
  level : Z;
  ticks : Z;
  number : Z;
  intervalMs : Z;
  slots : list (list ptr)
}.

(** The closures handed to [go] by [proceed]: the drain of slot [l] of wheel
    [w], which captured the tick count and the length read by [proceed], and
    the invocation of the job of one entry. *)
Inductive goroutine :=
| GDrain (w l : nat) (nowTicks : Z) (length : Z)
| GJob (e : ptr).

(** The state the goroutines of one Timer share.
    - [timer_status]: the Timer's [status];
    - [wheels]: its levels, finest first;
    - [heap]: the entries, by address;
    - [returned]: the wheels whose [start] goroutine has returned;
    - [launched]: the goroutines launched by [proceed], oldest first;
    - [fatal]: the panic that terminated the process, if one left a
      goroutine unrecovered. *)
Record World := mkWorld {
  timer_status : Z;
  wheels : list wheel;
  heap : ptr -> Entry;
  returned : list nat;
  launched : list goroutine;
  fatal : option panic_val
}.

Definition set_wheels (ws : list wheel) (s : World) : World :=
  mkWorld (timer_status s) ws (heap s) (returned s) (launched s) (fatal s).

Definition set_heap (h : ptr -> Entry) (s : World) : World :=
  mkWorld (timer_status s) (wheels s) h (returned s) (launched s) (fatal s).

Definition set_timer_status (v : Z) (s : World) : World :=
  mkWorld v (wheels s) (heap s) (returned s) (launched s) (fatal s).

Definition set_ticks (n : Z) (wh : wheel) : wheel :=
  mkWheel (level wh) n (number wh) (intervalMs wh) (slots wh).

Definition set_slots (ls : list (list ptr)) (wh : wheel) : wheel :=
  mkWheel (level wh) (ticks wh) (number wh) (intervalMs wh) ls.

(** [go f(...)]: the new goroutine is recorded; the caller goes on. *)
Definition go (g : goroutine) (s : World) : World :=
  mkWorld (timer_status s) (wheels s) (heap s) (returned s) (launched s ++ [g]) (fatal s).

(** A panic that no deferred call of its goroutine recovers: once the
    deferred calls of the goroutine's top-level function have run, the
    program is terminated (Go language specification, "Handling panics"),
    whichever goroutine it was. *)
Definition die (v : panic_val) (s : World) : World :=
  mkWorld (timer_status s) (wheels s) (heap s) (returned s) (launched s) (Some v).

(** The [start] goroutine of wheel [w] executes [ticker.Stop(); return]. *)
Definition loop_return (w : nat) (s : World) : World :=
  mkWorld (timer_status s) (wheels s) (heap s) (w :: returned s) (launched s) (fatal s).

(** The members of slot [l] of wheel [w], oldest first. *)
Definition slot (s : World) (w l : nat) : list ptr :=
  default [] (wheels s !! w ≫= fun wh => slots wh !! l).

Definition set_slot (w l : nat) (q : list ptr) (s : World) : World :=
  match wheels s !! w with
  | Some wh => set_wheels (<[w := set_slots (<[l := q]> (slots wh)) wh]> (wheels s)) s
  | None => s
  end.

Definition wheel_ticks (s : World) (w : nat) : Z :=
  default 0 (ticks <$> wheels s !! w).

(** Modelled from the spec: the accessors of an Entry's status and
    [Close], "any -> Closed: explicit Close() (idempotent)". *)
Definition Status (e : ptr) (s : World) : Z := status (heap s e).

Definition with_status (v : Z) (x : Entry) : Entry :=
  mkEntry v (remainingRuns x) (limitTimes x) (singleton x) (rawIntervalMs x).

Definition SetStatus (e : ptr) (v : Z) (s : World) : World :=
  set_heap (<[e := with_status v (heap s e)]> (heap s)) s.

Definition Close (e : ptr) (s : World) : World := SetStatus e StatusClosed s.

(** What code outside [proceed] and [start] does to the shared state: the
    registration and rescheduling calls push entries onto slots, the
    control operations and the rescheduling store entries, the Timer's
    [Start], [Stop] and [Close] store its status. Nothing there pops a slot
    or moves a tick counter: a slot is popped only by the drain of its own
    wheel and a counter is advanced only by its wheel's own loop. *)
Inductive op :=
| OpPush (w l : nat) (e : ptr)
| OpStore (e : ptr) (x : Entry)
| OpTimerStatus (v : Z).

Definition exec_op (s : World) (o : op) : World :=
  match o with
  | OpPush w l e => set_slot w l (PushBack e (slot s w l)) s
  | OpStore e x => set_heap (<[e := x]> (heap s)) s
  | OpTimerStatus v => set_timer_status v s
  end.

Definition exec_ops (os : list op) (s : World) : World := foldl exec_op s os.

(** The entries a sequence of operations pushes onto slot [l] of wheel [w]. *)
Definition pushes_to (w l : nat) (os : list op) : list ptr :=
  omap (fun o => match o with
                 | OpPush w' l' e => if decide (w' = w /\ l' = l) then Some e else None
                 | _ => None
                 end) os.

(** A job: what its body does to the shared state and how the call ends. *)
Definition JobFunc := World -> list op * outcome.

(** ** gtimer.go: the default timer and the package-level calls *)

Definition Millisecond : Z := 1000000.

(** A call on the shared state: the state it leaves, and its result or the
    panic it raised. *)
Definition result (A : Type) : Type := World * (A + panic_val).

(** A call used as a statement: the result is dropped, a panic is not. *)
Definition discard {A : Type} (r : result A) : result unit :=
  (r.1, match r.2 with inl _ => inl tt | inr v => inr v end).

Section DefaultTimer.

(** Modelled from the spec: the conversions of gvar.Var (gvar.go is not
    available here). The documented defaults are numbers and are
    taken as they are; what [Int] and [Duration] make of the string of an
    option or of an environment variable is a parameter. *)
Variable string_int : string -> Z.
Variable string_duration : string -> Z.

Definition Var_Int (v : cmdenv.value) : Z :=
  match v with
  | cmdenv.VNil => 0
  | cmdenv.VInt n => n
  | cmdenv.VString s => string_int s
  end.

Definition Var_Duration (v : cmdenv.value) : Z :=
  match v with
  | cmdenv.VNil => 0
  | cmdenv.VInt n => n
  | cmdenv.VString s => string_duration s
  end.

(** The process the package is initialised in. *)
Variable p : cmdenv.Process.

(** The constructor [New(slot, interval, level)] and the methods of a Timer
    live in gtimer_timer.go, which is not available here: they are
    parameters. *)
Context {Timer : Type}.
Variable New : Z -> Z -> Z -> Timer.
Variable Timer_Add : Timer -> Z -> JobFunc -> World -> result ptr.
Variable Timer_AddOnce : Timer -> Z -> JobFunc -> World -> result ptr.

(** The package variables (gtimer.go, 37-42). *)
Definition defaultSlots : Z :=
  Var_Int (cmdenv.Get p (gCmdenvKey +:+ ".slots") [cmdenv.VInt gDefaultSlotNumber]).

Definition defaultLevel : Z :=
  Var_Int (cmdenv.Get p (gCmdenvKey +:+ ".level") [cmdenv.VInt gDefaultWheelLevel]).

Definition defaultInterval : Z :=
  wrap64 (Var_Duration
            (cmdenv.Get p (gCmdenvKey +:+ ".interval") [cmdenv.VInt gDefaultWheelInterval])
          * Millisecond).

Definition defaultTimer : Timer := New defaultSlots defaultInterval defaultLevel.

(** gtimer.go, 46-59 and 82-84. *)
Definition Add (interval : Z) (job : JobFunc) (s : World) : result ptr :=
  Timer_Add defaultTimer interval job s.

Definition AddOnce (interval : Z) (job : JobFunc) (s : World) : result ptr :=
  Timer_AddOnce defaultTimer interval job s.

Definition SetTimeout (delay : Z) (job : JobFunc) (s : World) : result unit :=
  discard (AddOnce delay job s).

Definition SetInterval (interval : Z) (job : JobFunc) (s : World) : result unit :=
  discard (Add interval job s).

End DefaultTimer.

(** ** gtimer_loop.go: the dispatch loop *)

Section Loop.

(** Code of the package that is not available here, taken as
    parameters: [entry.check(nowTicks, nowMs)], which answers
    [(runnable, addable)], and [timer.doAddEntryByParent(interval, entry)];
    each may act on the shared state through the operations above. [job] is
    the [job] field of the entries. *)
Variable check : Z -> Z -> ptr -> World -> bool * bool * list op.
Variable doAddEntryByParent : Z -> ptr -> World -> list op.
Variable job : ptr -> JobFunc.

(** The index expression of [proceed], [int(n % w.number)]: Go's [%]
    truncates towards zero. *)
Definition slot_index (n : Z) (wh : wheel) : Z := Z.rem n (number wh).

(** [proceed] (gtimer_loop.go, 161-206), up to the launch of the drain. *)
Definition proceed (w : nat) (s : World) : World :=
  match wheels s !! w with
  | None => s
  | Some wh =>
      let n := gtype.Int64_Add (ticks wh) 1 in
      let s1 := set_wheels (<[w := set_ticks n wh]> (wheels s)) s in
      if number wh =? 0 then die (PRuntime "integer divide by zero") s1
      else
        match index (slots wh) (slot_index n wh) with
        | None => die (PRuntime "index out of range") s1
        | Some l =>
            let length := Len l in
            if 0 <? length
            then go (GDrain w (Z.to_nat (slot_index n wh)) n length) s1
            else s1
        end
  end.

(** One receive from [ticker.C] in the goroutine of [start]
    (gtimer_loop.go, 136-155). A terminated process runs nothing, and a
    goroutine that has returned receives nothing. *)
Definition start_tick (w : nat) (s : World) : World :=
  match fatal s with
  | Some _ => s
  | None =>
      if decide (w ∈ returned s) then s
      else if timer_status s =? StatusRunning then proceed w s
      else if timer_status s =? StatusStopped then s
      else if timer_status s =? StatusClosed then loop_return w s
      else s
  end.

(** The ticker of wheel [w] fires once per element of [sched]; before each
    firing the other goroutines perform the operations of that element. *)
Fixpoint start (w : nat) (sched : list (list op)) (s : World) : World :=
  match sched with
  | [] => s
  | os :: sched' => start w sched' (start_tick w (exec_ops os s))
  end.

(** Lines 196-202: the entry rolls on. *)
Definition resolve_reset (e : ptr) (s : World) : World :=
  if Status e s =? StatusReset then SetStatus e StatusReady s else s.

Definition roll_on (e : ptr) (s : World) : list op * World :=
  let s1 := resolve_reset e s in
  let os := doAddEntryByParent (rawIntervalMs (heap s1 e)) e s1 in
  (os, exec_ops os s1).

(** One iteration of the loop of the drain goroutine (lines 169-203):
    the entry processed ([None] on [break]), the operations performed on the
    way, and the state reached. In a terminated process nothing runs. *)
Definition drain_iter (w l : nat) (nowTicks nowMs : Z) (s : World)
  : option ptr * list op * World :=
  match fatal s, PopFront (slot s w l) with
  | Some _, _ => (None, [], s)
  | None, (None, _) => (None, [], s)
  | None, (Some e, rest) =>
      let s1 := set_slot w l rest s in
      let '(runnable, addable, os1) := check nowTicks nowMs e s1 in
      let s2 := exec_ops os1 s1 in
      let s3 := if runnable : bool then go (GJob e) s2 else s2 in
      if addable : bool
      then let '(os2, s4) := roll_on e s3 in (Some e, os1 ++ os2, s4)
      else (Some e, os1, s3)
  end.

(** The drain goroutine, [i] iterations to go. Before each iteration the
    other goroutines perform the operations at the head of [env]. The result
    lists the entries processed, in order, and every operation performed
    meanwhile, by the others and by the loop's own calls. *)
Fixpoint drain_loop (i : nat) (w l : nat) (nowTicks nowMs : Z)
    (env : list (list op)) (s : World) : list ptr * list op * World :=
  match i with
  | O => ([], [], s)
  | S i' =>
      let os := hd [] env in
      match drain_iter w l nowTicks nowMs (exec_ops os s) with
      | (None, os1, s1) => ([], os ++ os1, s1)
      | (Some e, os1, s1) =>
          let '(es, os2, s2) := drain_loop i' w l nowTicks nowMs (tl env) s1 in
          (e :: es, os ++ os1 ++ os2, s2)
      end
  end.

Definition drain (g : goroutine) (nowMs : Z) (env : list (list op)) (s : World)
  : list ptr * list op * World :=
  match g with
  | GDrain w l nowTicks length => drain_loop (Z.to_nat length) w l nowTicks nowMs env s
  | GJob _ => ([], [], s)
  end.

(** The deferred function of the job goroutine (lines 180-191), given what
    [recover()] returned: the state it leaves and the panic it raises. *)
Definition job_deferred (e : ptr) (r : option panic_val) (s : World)
  : World * option panic_val :=
  match r with
  | Some err =>
      if decide (err <> PString gPanicExit)
      then (s, Some err)
      else
        let s1 := Close e s in
        (if Status e s1 =? StatusRunning then SetStatus e StatusReady s1 else s1, None)
  | None =>
      (if Status e s =? StatusRunning then SetStatus e StatusReady s else s, None)
  end.

(** The job goroutine (lines 179-193): [entry.job()] under its deferred
    function; a panic that leaves it terminates the process. *)
Definition run_job (e : ptr) (s : World) : World :=
  match fatal s with
  | Some _ => s
  | None =>
      let '(os, out) := job e s in
      let s1 := exec_ops os s in
      let r := match out with Returned => None | Panicked v => Some v end in
      match job_deferred e r s1 with
      | (s2, None) => s2
      | (s2, Some err) => die err s2
      end
  end.

End Loop.

(** [Exit] (gtimer.go, 125-127) as a job outcome: [panic(gPanicExit)]. *)
Definition Exit : outcome := Panicked (PString gPanicExit).

End gtimer.

(** ** Concrete states, used to run the definitions *)

Module Sample.
Import Go gtimer.
Local Open Scope Z_scope.

Definition entry0 (st runs : Z) : Entry := mkEntry st runs 1 false 200.

(** One wheel of ten slots at tick 4; slot 5 holds the entries 1, 2 and 3.
    Entry 1 is [Ready], entry 2 [Reset], entry 3 [Stopped]. *)
Definition heap0 (e : ptr) : Entry :=
  match e with
  | 1%nat => entry0 StatusReady 3
  | 2%nat => entry0 StatusReset 3
  | 3%nat => entry0 StatusStopped 3
  | _ => entry0 StatusRunning 0
  end.

Definition wheel0 : wheel :=
  mkWheel 0 4 10 50 [[]; []; []; []; []; [1; 2; 3]%nat; []; []; []; []].

Definition world0 : World := mkWorld StatusRunning [wheel0] heap0 [] [] None.

(** A stand-in for [entry.check]: a [Stopped] or [Reset] entry rolls on
    without running, a [Closed] one is dropped, any other runs and rolls
    on. *)
Definition check0 (nowTicks nowMs : Z) (e : ptr) (s : World) : bool * bool * list op :=
  if Status e s =? StatusClosed then (false, false, [])
  else if (Status e s =? StatusStopped) || (Status e s =? StatusReset) then (false, true, [])
  else (true, true, []).

(** A stand-in for [doAddEntryByParent]: the entry goes back to the slot it
    came from, one rotation later. *)
Definition doAdd0 (interval : Z) (e : ptr) (s : World) : list op := [OpPush 0 5 e].

(** Jobs: one that returns, one that calls [Exit], one that fails. *)
Definition job_returns : ptr -> JobFunc := fun _ _ => ([], Returned).
Definition job_exits : ptr -> JobFunc := fun _ _ => ([], Exit).

End Sample.

(** ** Statements the properties refer to *)

Module Stated.
Import Go gtimer.
Local Open Scope Z_scope.

(** Slot [l] of wheel [w] exists. *)
Definition has_slot (s : World) (w l : nat) : Prop :=
  exists wh, wheels s !! w = Some wh /\ (l < length (slots wh))%nat.

(** The configuration lookup in the spec's words: "a command-line argument
    takes precedence over an environment variable, which takes precedence
    over the documented default", for the option named [opt] and the
    variable named [var]. A variable set to the empty string counts as not
    set: [os.Getenv] does not tell the two apart. *)
Definition configured {A : Type} (p : cmdenv.Process) (opt var : string)
    (of_string : string -> A) (def : A) : A :=
  match cmdenv.cmdOptions p !! opt with
  | Some v => of_string v
  | None =>
      match cmdenv.environ p !! var with
      | Some v => if decide (v = ""%string) then def else of_string v
      | None => def
      end
  end.

(** Normal completion as the spec states it: after a normal completion the status goes
    from [Running] to [Ready] when runs remain and from [Running] to
    [Closed] when none remains. *)
Definition normal_completion_as_stated (job : ptr -> JobFunc) (e : ptr) (s : World) : Prop :=
  forall os,
    fatal s = None ->
    job e s = (os, Returned) ->
    Status e (exec_ops os s) = StatusRunning ->
    (0 < remainingRuns (heap (exec_ops os s) e) ->
       Status e (run_job job e s) = StatusReady) /\
    (remainingRuns (heap (exec_ops os s) e) = 0 ->
       Status e (run_job job e s) = StatusClosed).


(** The wheel [w] as [New] builds it and the loop keeps it: as many slots
    as [number] says, at least one, and a counter that has not wrapped. *)
Definition wheel_ok (s : World) (w : nat) : Prop :=
  exists wh, wheels s !! w = Some wh /\
    number wh = Z.of_nat (length (slots wh)) /\ 0 < number wh /\ 0 <= ticks wh.



(** The bytes of a string, and back. *)
Abbreviation chars := String.list_ascii_of_string.
Abbreviation text := String.string_of_list_ascii.

(** A character the dot matches. *)
Definition not_newline (c : ascii) : Prop := regexp.cls_match regexp.Dot c = true.

(** The part of the pattern of [doInit] that follows the dashes: the key,
    the sign, the value. *)
Definition key_value : regexp.re :=
  regexp.Cat (regexp.Group 1 (regexp.Atom regexp.PlusLazy regexp.Dot))
    (regexp.Cat (regexp.Atom regexp.Once (regexp.Lit "="%char))
       (regexp.Group 2 (regexp.Atom regexp.Plus regexp.Dot))).


End Stated.

(** * Properties *)

Import Go glist gtimer Stated.
Local Open Scope Z_scope.

(** ** Arithmetic of the tick counter *)

Lemma wrap64_id (z : Z) : - 2 ^ 63 <= z < 2 ^ 63 -> wrap64 z = z.
Proof.
  intros H. unfold wrap64.
  rewrite Z.mod_small by lia. lia.
Qed.

Lemma rem_nonneg_mod (n m : Z) : 0 <= n -> 0 < m -> Z.rem n m = n mod m.
Proof. intros Hn Hm. apply Z.rem_mod_nonneg; lia. Qed.

(** ** Frame lemmas for the operations of other goroutines *)

Lemma exec_op_fatal s o : fatal (exec_op s o) = fatal s.
Proof. destruct o; simpl; try done. unfold set_slot. by destruct (wheels s !! w). Qed.

Lemma exec_op_returned s o : returned (exec_op s o) = returned s.
Proof. destruct o; simpl; try done. unfold set_slot. by destruct (wheels s !! w). Qed.

Lemma exec_op_launched s o : launched (exec_op s o) = launched s.
Proof. destruct o; simpl; try done. unfold set_slot. by destruct (wheels s !! w). Qed.

Lemma set_slot_wheel_ticks w l q s w' :
  wheel_ticks (set_slot w l q s) w' = wheel_ticks s w'.
Proof.
  unfold set_slot, wheel_ticks.
  destruct (wheels s !! w) as [wh|] eqn:Hw; [|done]. simpl.
  destruct (decide (w = w')) as [->|Hne].
  - rewrite list_lookup_insert_eq by (by eapply lookup_lt_Some). by rewrite Hw.
  - by rewrite list_lookup_insert_ne.
Qed.

Lemma exec_op_wheel_ticks s o w : wheel_ticks (exec_op s o) w = wheel_ticks s w.
Proof. destruct o; simpl; try done. apply set_slot_wheel_ticks. Qed.

Lemma exec_ops_fatal os s : fatal (exec_ops os s) = fatal s.
Proof.
  revert s. induction os as [|o os IH]; intros s; [done|].
  unfold exec_ops in *. simpl. by rewrite IH, exec_op_fatal.
Qed.

Lemma exec_ops_returned os s : returned (exec_ops os s) = returned s.
Proof.
  revert s. induction os as [|o os IH]; intros s; [done|].
  unfold exec_ops in *. simpl. by rewrite IH, exec_op_returned.
Qed.

Lemma exec_ops_launched os s : launched (exec_ops os s) = launched s.
Proof.
  revert s. induction os as [|o os IH]; intros s; [done|].
  unfold exec_ops in *. simpl. by rewrite IH, exec_op_launched.
Qed.

Lemma exec_ops_wheel_ticks os s w : wheel_ticks (exec_ops os s) w = wheel_ticks s w.
Proof.
  revert s. induction os as [|o os IH]; intros s; [done|].
  unfold exec_ops in *. simpl. by rewrite IH, exec_op_wheel_ticks.
Qed.

(** ** The tick: counter and current slot *)

Lemma proceed_wheel_ticks (w : nat) (s : World) (wh : wheel) :
  wheels s !! w = Some wh ->
  wheel_ticks (proceed w s) w = wrap64 (ticks wh + 1).
Proof.
  intros Hw. unfold proceed, gtype.Int64_Add. rewrite Hw.
  assert (Hlt : (w < length (wheels s))%nat) by (by eapply lookup_lt_Some).
  assert (Ht : forall s', wheels s' = <[w := set_ticks (wrap64 (ticks wh + 1)) wh]> (wheels s) ->
                 wheel_ticks s' w = wrap64 (ticks wh + 1)).
  { intros s' Hs'. unfold wheel_ticks. rewrite Hs'.
    by rewrite list_lookup_insert_eq. }
  destruct (number wh =? 0); [by apply Ht|].
  destruct (index _ _); [|by apply Ht].
  destruct (0 <? Len l); by apply Ht.
Qed.

(** C2. On a firing of the dispatch loop, [proceed] advances the wheel's
    tick counter by exactly one, and the slot it selects is the one at index
    (advanced counter) mod (slot count): the drain it launches for a
    non-empty slot is the drain of that slot, at the advanced tick count, and
    an empty slot launches nothing. *)
Theorem proceed_advances_counter_and_selects_slot (w : nat) (s : World) (wh : wheel) :
  wheels s !! w = Some wh ->
  0 <= ticks wh < MaxInt64 ->
  0 < number wh ->
  wheel_ticks (proceed w s) w = ticks wh + 1 /\
  slot_index (wheel_ticks (proceed w s) w) wh = (ticks wh + 1) mod number wh /\
  forall l : list ptr,
    slots wh !! Z.to_nat ((ticks wh + 1) mod number wh) = Some l ->
    launched (proceed w s) =
      launched s ++
        (if decide (l = [])
         then []
         else [GDrain w (Z.to_nat ((ticks wh + 1) mod number wh)) (ticks wh + 1) (Len l)]).
Proof.
  intros Hw Ht Hn. unfold MaxInt64 in Ht.
  assert (Hwrap : wrap64 (ticks wh + 1) = ticks wh + 1) by (apply wrap64_id; lia).
  assert (Hidx : slot_index (ticks wh + 1) wh = (ticks wh + 1) mod number wh).
  { unfold slot_index. apply rem_nonneg_mod; lia. }
  rewrite (proceed_wheel_ticks w s wh Hw), Hwrap.
  split; [done|]. split; [done|].
  intros l Hl. unfold proceed, gtype.Int64_Add. rewrite Hw, Hwrap, Hidx.
  assert (Hm : 0 <= (ticks wh + 1) mod number wh) by (apply Z.mod_pos_bound; lia).
  destruct (number wh =? 0) eqn:Hz; [lia|].
  unfold index. destruct ((ticks wh + 1) mod number wh <? 0) eqn:Hneg; [lia|].
  rewrite Hl. unfold Len.
  destruct l as [|e l]; simpl.
  - by rewrite app_nil_r.
  - done.
Qed.

Lemma proceed_advances_counter_and_selects_slot_witness :
  wheel_ticks (proceed 0 Sample.world0) 0 = 5 /\
  slot_index (wheel_ticks (proceed 0 Sample.world0) 0) Sample.wheel0 = 5 /\
  launched (proceed 0 Sample.world0) = [GDrain 0 5 5 3].
Proof.
  destruct (proceed_advances_counter_and_selects_slot 0 Sample.world0 Sample.wheel0)
    as (H1 & H2 & H3).
  - reflexivity.
  - unfold MaxInt64; simpl; lia.
  - simpl; lia.
  - split; [exact H1|]. split; [exact H2|].
    exact (H3 [1; 2; 3]%nat eq_refl).
Defined.

(** ** The loop of [start] and the Timer's status *)

(** Under a [Running] Timer a firing of a live loop is one call of
    [proceed]. *)
Lemma start_tick_running (w : nat) (s : World) :
  fatal s = None -> w ∉ returned s -> timer_status s = StatusRunning ->
  start_tick w s = proceed w s.
Proof.
  intros Hf Hw Hst. unfold start_tick. rewrite Hf, Hst. simpl.
  by destruct (decide (w ∈ returned s)).
Qed.

Lemma start_tick_returned (w : nat) (s : World) :
  w ∈ returned s -> start_tick w s = s.
Proof.
  intros Hin. unfold start_tick. destruct (fatal s); [done|].
  by destruct (decide (w ∈ returned s)).
Qed.

Lemma start_after_return (w : nat) (sched : list (list op)) (s : World) :
  w ∈ returned s ->
  w ∈ returned (start w sched s) /\
  wheel_ticks (start w sched s) w = wheel_ticks s w /\
  launched (start w sched s) = launched s /\
  forall l, slot (start w sched s) w l = slot (exec_ops (concat sched) s) w l.
Proof.
  revert s. induction sched as [|os sched IH]; intros s Hin; simpl.
  - done.
  - assert (Hin' : w ∈ returned (exec_ops os s)) by (by rewrite exec_ops_returned).
    rewrite (start_tick_returned w _ Hin').
    destruct (IH _ Hin') as (H1 & H2 & H3 & H4).
    rewrite H2, H3, exec_ops_wheel_ticks, exec_ops_launched.
    repeat split; try done.
    intros l. rewrite H4. unfold exec_ops. by rewrite foldl_app.
Qed.

(** C6. While the Timer's status is [Stopped], a firing of the ticker
    changes nothing: the counter does not advance and no slot is drained.
    When a firing observes [Closed], the loop stops its ticker and returns;
    whatever the other goroutines do afterwards (restoring the status to
    [Running] included) and however often the ticker would have fired, the
    wheel's counter stays, no drain is launched, and its slots change only
    by what the others push. *)
Theorem start_stopped_idle_closed_terminates (w : nat) (s : World) :
  (timer_status s = StatusStopped -> start_tick w s = s) /\
  (timer_status s = StatusClosed -> fatal s = None -> w ∉ returned s ->
   w ∈ returned (start_tick w s) /\
   wheels (start_tick w s) = wheels s /\
   launched (start_tick w s) = launched s /\
   forall sched : list (list op),
     wheel_ticks (start w sched (start_tick w s)) w = wheel_ticks s w /\
     launched (start w sched (start_tick w s)) = launched s /\
     forall l, slot (start w sched (start_tick w s)) w l
               = slot (exec_ops (concat sched) s) w l).
Proof.
  split.
  - intros Hst. unfold start_tick. rewrite Hst. simpl.
    destruct (fatal s); [done|]. by destruct (decide (w ∈ returned s)).
  - intros Hst Hf Hw.
    assert (Hs : start_tick w s = loop_return w s).
    { unfold start_tick. rewrite Hf, Hst. simpl.
      by destruct (decide (w ∈ returned s)). }
    rewrite Hs.
    assert (Hin : w ∈ returned (loop_return w s)) by (simpl; apply list_elem_of_here).
    split; [done|]. split; [done|]. split; [done|].
    intros sched.
    destruct (start_after_return w sched _ Hin) as (_ & H2 & H3 & H4).
    split; [exact H2|]. split; [exact H3|].
    intros l. rewrite H4.
    unfold slot.
    assert (Hws : forall os s1 s2, wheels s1 = wheels s2 ->
                    wheels (exec_ops os s1) = wheels (exec_ops os s2)).
    { clear. induction os as [|o os IH]; intros s1 s2 He; [done|].
      unfold exec_ops in *. simpl. apply IH.
      destruct o; simpl; try done.
      unfold set_slot, slot. rewrite He.
      destruct (wheels s2 !! w); simpl; [|done]. done. }
    by rewrite (Hws (concat sched) (loop_return w s) s).
Qed.

Lemma start_stopped_idle_closed_terminates_witness :
  start_tick 0 (set_timer_status StatusStopped Sample.world0)
    = set_timer_status StatusStopped Sample.world0 /\
  wheel_ticks
    (start 0 [[OpTimerStatus StatusRunning]; []; [OpPush 0 5 9%nat]]
       (start_tick 0 (set_timer_status StatusClosed Sample.world0))) 0 = 4.
Proof.
  split.
  - apply (start_stopped_idle_closed_terminates 0
             (set_timer_status StatusStopped Sample.world0)).
    reflexivity.
  - apply (start_stopped_idle_closed_terminates 0
             (set_timer_status StatusClosed Sample.world0)).
    + reflexivity.
    + reflexivity.
    + simpl. apply not_elem_of_nil.
Defined.

(** ** Slots under pushes *)

Lemma slot_ext (s1 s2 : World) (w l : nat) :
  wheels s1 = wheels s2 -> slot s1 w l = slot s2 w l.
Proof. intros H. unfold slot. by rewrite H. Qed.

Lemma has_slot_ext (s1 s2 : World) (w l : nat) :
  wheels s1 = wheels s2 -> has_slot s1 w l -> has_slot s2 w l.
Proof. intros H (wh & Hw & Hl). exists wh. by rewrite <- H. Qed.

Lemma slot_set_slot_eq (s : World) (w l : nat) (q : list ptr) :
  has_slot s w l -> slot (set_slot w l q s) w l = q.
Proof.
  intros (wh & Hw & Hl). unfold set_slot, slot. rewrite Hw. simpl.
  rewrite list_lookup_insert_eq by (by eapply lookup_lt_Some). simpl.
  by rewrite list_lookup_insert_eq.
Qed.

Lemma slot_set_slot_ne (s : World) (w l w' l' : nat) (q : list ptr) :
  ~ (w' = w /\ l' = l) -> slot (set_slot w' l' q s) w l = slot s w l.
Proof.
  intros Hne. unfold set_slot, slot.
  destruct (wheels s !! w') as [wh'|] eqn:Hw'; [|done]. simpl.
  destruct (decide (w' = w)) as [->|Hw].
  - rewrite list_lookup_insert_eq by (by eapply lookup_lt_Some).
    rewrite Hw'. simpl.
    rewrite list_lookup_insert_ne; [done|]. intros ->. by apply Hne.
  - by rewrite list_lookup_insert_ne.
Qed.

Lemma has_slot_set_slot (s : World) (w l w' l' : nat) (q : list ptr) :
  has_slot s w l -> has_slot (set_slot w' l' q s) w l.
Proof.
  intros (wh & Hw & Hl). unfold set_slot, has_slot.
  destruct (wheels s !! w') as [wh'|] eqn:Hw'; [|by exists wh]. simpl.
  destruct (decide (w' = w)) as [->|Hne].
  - rewrite list_lookup_insert_eq by (by eapply lookup_lt_Some).
    eexists. split; [done|]. simpl. rewrite length_insert.
    by replace wh' with wh by congruence.
  - rewrite list_lookup_insert_ne by done. by exists wh.
Qed.

Lemma exec_op_has_slot (s : World) (o : op) (w l : nat) :
  has_slot s w l -> has_slot (exec_op s o) w l.
Proof.
  intros H. destruct o; simpl.
  - by apply has_slot_set_slot.
  - by apply (has_slot_ext s).
  - by apply (has_slot_ext s).
Qed.

Lemma exec_op_slot (s : World) (o : op) (w l : nat) :
  has_slot s w l -> slot (exec_op s o) w l = slot s w l ++ pushes_to w l [o].
Proof.
  intros H. destruct o as [w' l' e| |]; simpl.
  - destruct (decide (w' = w /\ l' = l)) as [[-> ->]|Hne].
    + by rewrite slot_set_slot_eq.
    + rewrite slot_set_slot_ne by done. by rewrite app_nil_r.
  - by rewrite app_nil_r.
  - by rewrite app_nil_r.
Qed.

Lemma exec_ops_has_slot (os : list op) (s : World) (w l : nat) :
  has_slot s w l -> has_slot (exec_ops os s) w l.
Proof.
  revert s. induction os as [|o os IH]; intros s H; [done|].
  unfold exec_ops in *. simpl. apply IH. by apply exec_op_has_slot.
Qed.

Lemma pushes_to_app (w l : nat) (os1 os2 : list op) :
  pushes_to w l (os1 ++ os2) = pushes_to w l os1 ++ pushes_to w l os2.
Proof. unfold pushes_to. apply omap_app. Qed.

Lemma exec_ops_slot (os : list op) (s : World) (w l : nat) :
  has_slot s w l -> slot (exec_ops os s) w l = slot s w l ++ pushes_to w l os.
Proof.
  revert s. induction os as [|o os IH]; intros s H.
  - simpl. by rewrite app_nil_r.
  - change (o :: os) with ([o] ++ os). rewrite pushes_to_app.
    unfold exec_ops in *. simpl foldl.
    rewrite IH by (by apply exec_op_has_slot).
    rewrite exec_op_slot by done. by rewrite <- app_assoc.
Qed.

(** ** The drain of the current slot *)

Section Drain.

Variable check : Z -> Z -> ptr -> World -> bool * bool * list op.
Variable doAddEntryByParent : Z -> ptr -> World -> list op.

Lemma resolve_reset_wheels (e : ptr) (s : World) :
  wheels (resolve_reset e s) = wheels s /\ fatal (resolve_reset e s) = fatal s.
Proof. unfold resolve_reset. by destruct (Status e s =? StatusReset). Qed.



End Drain.



(** The run of the witness, computed: the pushed entries 9 and 8 and the
    three entries rolled on by the loop are in the slot afterwards; 1, 2, 3
    were processed. *)
Example drain_sample_run :
  let '(processed, os, s') :=
    drain Sample.check0 Sample.doAdd0 (GDrain 0 5 5 3) 1000
      [[OpPush 0 5 9%nat]; []; [OpPush 0 5 8%nat]] (proceed 0 Sample.world0) in
  processed = [1; 2; 3]%nat /\
  slot s' 0 5 = [9; 1; 2; 8; 3]%nat /\
  launched s' = [GDrain 0 5 5 3; GJob 1%nat].
Proof. vm_compute. done. Qed.

(** C8. In an iteration of the drain whose entry is to roll on
    ([check] answered addable), if the entry's status is [Reset] at that
    point, the status is stored as [Ready] first and
    [doAddEntryByParent] is called on the state in which it is [Ready]. *)
Theorem reset_entry_is_ready_before_it_is_re_added
    (check : Z -> Z -> ptr -> World -> bool * bool * list op)
    (doAddEntryByParent : Z -> ptr -> World -> list op)
    (w l : nat) (nowTicks nowMs : Z) (s : World)
    (e : ptr) (q : list ptr) (runnable : bool) (os1 : list op) :
  fatal s = None ->
  slot s w l = e :: q ->
  check nowTicks nowMs e (set_slot w l q s) = (runnable, true, os1) ->
  let s2 := exec_ops os1 (set_slot w l q s) in
  let s3 := if runnable then go (GJob e) s2 else s2 in
  Status e s3 = StatusReset ->
  let s4 := SetStatus e StatusReady s3 in
  let os2 := doAddEntryByParent (rawIntervalMs (heap s4 e)) e s4 in
  Status e s4 = StatusReady /\
  (forall e', e' <> e -> heap s4 e' = heap s3 e') /\
  drain_iter check doAddEntryByParent w l nowTicks nowMs s
    = (Some e, os1 ++ os2, exec_ops os2 s4).
Proof.
  intros Hf Hq Hc s2 s3 Hst s4 os2.
  split; [|split].
  - unfold s4, Status, SetStatus. simpl. by rewrite fn_lookup_insert.
  - intros e' Hne. unfold s4, SetStatus. simpl. by rewrite fn_lookup_insert_ne.
  - unfold drain_iter. rewrite Hf, Hq. simpl. rewrite Hc.
    fold s2. fold s3. unfold roll_on, resolve_reset. rewrite Hst. simpl.
    done.
Qed.

Lemma reset_entry_is_ready_before_it_is_re_added_witness :
  let s := set_slot 0 5 [2; 3]%nat Sample.world0 in
  let s4 := SetStatus 2%nat StatusReady (set_slot 0 5 [3]%nat s) in
  Status 2%nat s4 = StatusReady /\
  (forall e', e' <> 2%nat -> heap s4 e' = heap (set_slot 0 5 [3]%nat s) e') /\
  drain_iter Sample.check0 Sample.doAdd0 0 5 5 1000 s
    = (Some 2%nat, [OpPush 0 5 2%nat], exec_ops [OpPush 0 5 2%nat] s4).
Proof.
  exact (reset_entry_is_ready_before_it_is_re_added Sample.check0 Sample.doAdd0
           0 5 5 1000 (set_slot 0 5 [2; 3]%nat Sample.world0) 2%nat [3]%nat false []
           eq_refl eq_refl eq_refl eq_refl).
Defined.

(** ** The wrapper around a job invocation *)

Lemma SetStatus_Status (e : ptr) (v : Z) (s : World) : Status e (SetStatus e v s) = v.
Proof. unfold Status, SetStatus. simpl. by rewrite fn_lookup_insert. Qed.

Lemma SetStatus_other (e e' : ptr) (v : Z) (s : World) :
  e' <> e -> heap (SetStatus e v s) e' = heap s e'.
Proof. intros Hne. unfold SetStatus. simpl. by rewrite fn_lookup_insert_ne. Qed.

Lemma run_job_returned (job : ptr -> JobFunc) (e : ptr) (s : World) (os : list op) :
  fatal s = None ->
  job e s = (os, Returned) ->
  run_job job e s =
    (if Status e (exec_ops os s) =? StatusRunning
     then SetStatus e StatusReady (exec_ops os s)
     else exec_ops os s).
Proof. intros Hf Hj. unfold run_job. by rewrite Hf, Hj. Qed.

(** C3, counterexample: entry 7 is [Running] with no run left and its job
    returns; the wrapper leaves it [Ready], not [Closed]. *)
Lemma normal_completion_with_no_run_left_is_ready :
  ~ normal_completion_as_stated Sample.job_returns 7%nat Sample.world0.
Proof.
  intros H.
  destruct (H [] eq_refl eq_refl eq_refl) as [_ Hclosed].
  specialize (Hclosed eq_refl). vm_compute in Hclosed. discriminate Hclosed.
Qed.

(** C3, amended. When a job invocation completes normally, the wrapper
    moves a status that is [Running] to [Ready], whether runs remain or
    not, and leaves any other status (so also [Closed]) as it is; it
    touches no other entry and raises nothing. *)
Theorem normal_completion_makes_running_ready
    (job : ptr -> JobFunc) (e : ptr) (s : World) (os : list op) :
  fatal s = None ->
  job e s = (os, Returned) ->
  (Status e (exec_ops os s) = StatusRunning ->
     Status e (run_job job e s) = StatusReady) /\
  (Status e (exec_ops os s) <> StatusRunning ->
     run_job job e s = exec_ops os s) /\
  (forall e', e' <> e -> heap (run_job job e s) e' = heap (exec_ops os s) e') /\
  fatal (run_job job e s) = None.
Proof.
  intros Hf Hj. rewrite (run_job_returned job e s os Hf Hj).
  destruct (Status e (exec_ops os s) =? StatusRunning) eqn:Hst.
  - split; [intros _; apply SetStatus_Status|].
    split; [intros Hne; apply Z.eqb_eq in Hst; done|].
    split; [intros e' Hne; by apply SetStatus_other|].
    simpl. by rewrite exec_ops_fatal.
  - split; [intros Heq; apply Z.eqb_neq in Hst; done|].
    split; [done|]. split; [done|]. by rewrite exec_ops_fatal.
Qed.

Lemma normal_completion_makes_running_ready_witness :
  (Status 7%nat (exec_ops [] Sample.world0) = StatusRunning ->
     Status 7%nat (run_job Sample.job_returns 7%nat Sample.world0) = StatusReady) /\
  (Status 7%nat (exec_ops [] Sample.world0) <> StatusRunning ->
     run_job Sample.job_returns 7%nat Sample.world0 = exec_ops [] Sample.world0) /\
  (forall e', e' <> 7%nat ->
     heap (run_job Sample.job_returns 7%nat Sample.world0) e'
     = heap (exec_ops [] Sample.world0) e') /\
  fatal (run_job Sample.job_returns 7%nat Sample.world0) = None.
Proof.
  exact (normal_completion_makes_running_ready Sample.job_returns 7%nat Sample.world0 []
           eq_refl eq_refl).
Defined.

(** C4. When the job raises the cancellation signal ([Exit], that is
    [panic("exit")]), the deferred function recovers it and raises nothing
    in its place, the entry's status is [Closed] afterwards, no other entry
    is touched, and the process goes on. *)
Theorem exit_is_caught_and_closes_the_entry
    (job : ptr -> JobFunc) (e : ptr) (s : World) (os : list op) :
  fatal s = None ->
  job e s = (os, Exit) ->
  (job_deferred e (Some (PString gPanicExit)) (exec_ops os s)).2 = None /\
  Status e (run_job job e s) = StatusClosed /\
  (forall e', e' <> e -> heap (run_job job e s) e' = heap (exec_ops os s) e') /\
  fatal (run_job job e s) = None.
Proof.
  intros Hf Hj. unfold run_job. rewrite Hf, Hj. unfold Exit.
  unfold job_deferred.
  destruct (decide (PString gPanicExit <> PString gPanicExit)) as [Hne|_]; [done|].
  unfold Close. rewrite SetStatus_Status. simpl.
  split; [done|]. split; [apply SetStatus_Status|].
  split; [intros e' Hne; by apply SetStatus_other|].
  by rewrite exec_ops_fatal.
Qed.

Lemma exit_is_caught_and_closes_the_entry_witness :
  (job_deferred 1%nat (Some (PString gPanicExit)) (exec_ops [] Sample.world0)).2 = None /\
  Status 1%nat (run_job Sample.job_exits 1%nat Sample.world0) = StatusClosed /\
  (forall e', e' <> 1%nat ->
     heap (run_job Sample.job_exits 1%nat Sample.world0) e'
     = heap (exec_ops [] Sample.world0) e') /\
  fatal (run_job Sample.job_exits 1%nat Sample.world0) = None.
Proof.
  exact (exit_is_caught_and_closes_the_entry Sample.job_exits 1%nat Sample.world0 []
           eq_refl eq_refl).
Defined.

Lemma run_job_failed (job : ptr -> JobFunc) (e : ptr) (s : World)
    (os : list op) (err : panic_val) :
  fatal s = None ->
  job e s = (os, Panicked err) ->
  err <> PString gPanicExit ->
  job_deferred e (Some err) (exec_ops os s) = (exec_ops os s, Some err) /\
  run_job job e s = die err (exec_ops os s).
Proof.
  intros Hf Hj Hne.
  assert (Hd : job_deferred e (Some err) (exec_ops os s) = (exec_ops os s, Some err)).
  { unfold job_deferred. by destruct (decide (err <> PString gPanicExit)). }
  split; [done|]. unfold run_job. by rewrite Hf, Hj, Hd.
Qed.






(** ** The default timer's configuration *)

Lemma Get_precedence (p : cmdenv.Process) (key : string) (def : cmdenv.value) :
  cmdenv.Get p key [def] =
    match cmdenv.cmdOptions p !! cmdenv.ToLower (cmdenv.Replace key "_" ".") with
    | Some v => cmdenv.VString v
    | None =>
        match cmdenv.environ p !! cmdenv.ToUpper (cmdenv.Replace key "." "_") with
        | Some v => if decide (v = ""%string) then def else cmdenv.VString v
        | None => def
        end
    end.
Proof.
  unfold cmdenv.Get, cmdenv.Getenv.
  destruct (cmdenv.cmdOptions p !! _); [done|].
  destruct (cmdenv.environ p !! _) as [v|]; simpl.
  - destruct (decide (v <> ""%string)), (decide (v = ""%string)); done.
  - by destruct (decide (""%string <> ""%string)).
Qed.

Example gtimer_option_names :
  cmdenv.ToLower (cmdenv.Replace (gCmdenvKey +:+ ".slots") "_" ".") = "gf.gtimer.slots"%string /\
  cmdenv.ToLower (cmdenv.Replace (gCmdenvKey +:+ ".level") "_" ".") = "gf.gtimer.level"%string /\
  cmdenv.ToLower (cmdenv.Replace (gCmdenvKey +:+ ".interval") "_" ".")
    = "gf.gtimer.interval"%string.
Proof. by vm_compute. Qed.

Example gtimer_variable_names :
  cmdenv.ToUpper (cmdenv.Replace (gCmdenvKey +:+ ".slots") "." "_") = "GF_GTIMER_SLOTS"%string /\
  cmdenv.ToUpper (cmdenv.Replace (gCmdenvKey +:+ ".level") "." "_") = "GF_GTIMER_LEVEL"%string /\
  cmdenv.ToUpper (cmdenv.Replace (gCmdenvKey +:+ ".interval") "." "_")
    = "GF_GTIMER_INTERVAL"%string.
Proof. by vm_compute. Qed.

Section DefaultTimerFacts.

Variables string_int string_duration : string -> Z.
Variable p : cmdenv.Process.
Variable Timer : Type.
Variable New : Z -> Z -> Z -> Timer.
Variables Timer_Add Timer_AddOnce : Timer -> Z -> JobFunc -> World -> result ptr.

Local Abbreviation slots_ := (defaultSlots string_int p).
Local Abbreviation level_ := (defaultLevel string_int p).
Local Abbreviation interval_ := (defaultInterval string_duration p).
Local Abbreviation timer_ := (defaultTimer string_int string_duration p New).
Local Abbreviation Add_ := (Add string_int string_duration p New Timer_Add).
Local Abbreviation AddOnce_ := (AddOnce string_int string_duration p New Timer_AddOnce).
Local Abbreviation SetTimeout_ := (SetTimeout string_int string_duration p New Timer_AddOnce).
Local Abbreviation SetInterval_ := (SetInterval string_int string_duration p New Timer_Add).

(** C9. The default Timer is [New(defaultSlots, defaultInterval,
    defaultLevel)], where each of the three is looked up under gf.gtimer:
    the command-line option (gf.gtimer.slots, gf.gtimer.level,
    gf.gtimer.interval) if given, else the environment variable
    (GF_GTIMER_SLOTS, GF_GTIMER_LEVEL, GF_GTIMER_INTERVAL) if set and not
    empty, else the default: 10 slots, 6 levels, 50 milliseconds. With
    neither options nor variables it is [New(10, 50ms, 6)]. *)
Theorem default_timer_configuration :
  slots_ = configured p "gf.gtimer.slots" "GF_GTIMER_SLOTS" string_int 10 /\
  level_ = configured p "gf.gtimer.level" "GF_GTIMER_LEVEL" string_int 6 /\
  interval_
    = wrap64 (configured p "gf.gtimer.interval" "GF_GTIMER_INTERVAL" string_duration 50
              * Millisecond) /\
  timer_ = New slots_ interval_ level_ /\
  (cmdenv.cmdOptions p = ∅ -> cmdenv.environ p = ∅ ->
   timer_ = New 10 (50 * Millisecond) 6).
Proof.
  destruct gtimer_option_names as (Ho1 & Ho2 & Ho3).
  destruct gtimer_variable_names as (Hv1 & Hv2 & Hv3).
  assert (H1 : slots_ = configured p "gf.gtimer.slots" "GF_GTIMER_SLOTS" string_int 10).
  { unfold defaultSlots, configured. rewrite Get_precedence, Ho1, Hv1.
    destruct (cmdenv.cmdOptions p !! _); [done|].
    destruct (cmdenv.environ p !! _) as [v|]; [|done].
    by destruct (decide (v = ""%string)). }
  assert (H2 : level_ = configured p "gf.gtimer.level" "GF_GTIMER_LEVEL" string_int 6).
  { unfold defaultLevel, configured. rewrite Get_precedence, Ho2, Hv2.
    destruct (cmdenv.cmdOptions p !! _); [done|].
    destruct (cmdenv.environ p !! _) as [v|]; [|done].
    by destruct (decide (v = ""%string)). }
  assert (H3 : interval_
               = wrap64 (configured p "gf.gtimer.interval" "GF_GTIMER_INTERVAL"
                           string_duration 50 * Millisecond)).
  { unfold defaultInterval, configured. rewrite Get_precedence, Ho3, Hv3.
    destruct (cmdenv.cmdOptions p !! _); [done|].
    destruct (cmdenv.environ p !! _) as [v|]; [|done].
    by destruct (decide (v = ""%string)). }
  split; [done|]. split; [done|]. split; [done|]. split; [done|].
  intros Hopt Henv. unfold defaultTimer. rewrite H1, H2, H3.
  unfold configured. rewrite Hopt, Henv, !lookup_empty.
  done.
Qed.

(** ** The javascript-style aliases *)

(** C10. [SetTimeout(d, j)] is the call [AddOnce(d, j)], that is
    [defaultTimer.AddOnce(d, j)], used as a statement, and
    [SetInterval(d, j)] is the call [Add(d, j)], that is
    [defaultTimer.Add(d, j)]: the same state afterwards and the same
    panic, if any; only the returned entry is dropped. *)
Theorem aliases_add_nothing (d : Z) (j : JobFunc) (s : World) :
  SetTimeout_ d j s = discard (AddOnce_ d j s) /\
  AddOnce_ d j s = Timer_AddOnce timer_ d j s /\
  (SetTimeout_ d j s).1 = (Timer_AddOnce timer_ d j s).1 /\
  (forall v, (SetTimeout_ d j s).2 = inr v <-> (Timer_AddOnce timer_ d j s).2 = inr v) /\
  SetInterval_ d j s = discard (Add_ d j s) /\
  Add_ d j s = Timer_Add timer_ d j s /\
  (SetInterval_ d j s).1 = (Timer_Add timer_ d j s).1 /\
  (forall v, (SetInterval_ d j s).2 = inr v <-> (Timer_Add timer_ d j s).2 = inr v).
Proof.
  assert (Hd : forall (r : result ptr) v, (discard r).2 = inr v <-> r.2 = inr v).
  { intros [s' [x|v']] v; simpl; split; intros H; congruence. }
  repeat split; try apply Hd.
Qed.

End DefaultTimerFacts.

(** ** Further properties of the loop *)

(** The counter is an [int64]: at [MaxInt64] the addition wraps to the
    most negative value, the remainder is negative and the index
    expression panics. The range assumed for the counter in the property of
    the tick is therefore needed. *)
Example proceed_counter_wraps :
  let s := mkWorld StatusRunning
             [mkWheel 0 MaxInt64 10 50 (replicate 10 [])] Sample.heap0 [] [] None in
  wheel_ticks (proceed 0 s) 0 = - 2 ^ 63 /\
  fatal (proceed 0 s) = Some (PRuntime "index out of range").
Proof. by vm_compute. Qed.

(** X1. The [switch] of [start] has no default: under a Timer status that
    is neither [Running] nor [Closed] ([Stopped], or any other value), a
    firing does nothing. *)
Theorem start_ignores_other_statuses (w : nat) (s : World) :
  timer_status s <> StatusRunning ->
  timer_status s <> StatusClosed ->
  start_tick w s = s.
Proof.
  intros Hr Hc. unfold start_tick.
  destruct (fatal s); [done|].
  destruct (decide (w ∈ returned s)); [done|].
  destruct (timer_status s =? StatusRunning) eqn:H1; [by apply Z.eqb_eq in H1|].
  destruct (timer_status s =? StatusStopped); [done|].
  destruct (timer_status s =? StatusClosed) eqn:H3; [by apply Z.eqb_eq in H3|].
  done.
Qed.

Lemma start_ignores_other_statuses_witness :
  start_tick 0 (set_timer_status StatusReset Sample.world0)
    = set_timer_status StatusReset Sample.world0.
Proof.
  apply (start_ignores_other_statuses 0 (set_timer_status StatusReset Sample.world0)).
  - discriminate.
  - discriminate.
Defined.

Lemma set_slot_launched (w l : nat) (q : list ptr) (s : World) :
  launched (set_slot w l q s) = launched s.
Proof. unfold set_slot. by destruct (wheels s !! w). Qed.

(** X2. An iteration of the drain launches the job of a runnable entry as
    a goroutine of its own, and launches nothing for an entry that is not
    runnable; the iteration itself runs no job. *)
Theorem drain_iteration_launches_the_job
    (check : Z -> Z -> ptr -> World -> bool * bool * list op)
    (doAddEntryByParent : Z -> ptr -> World -> list op)
    (w l : nat) (nowTicks nowMs : Z) (s : World)
    (e : ptr) (q : list ptr) (runnable addable : bool) (os1 : list op) :
  fatal s = None ->
  slot s w l = e :: q ->
  check nowTicks nowMs e (set_slot w l q s) = (runnable, addable, os1) ->
  launched (drain_iter check doAddEntryByParent w l nowTicks nowMs s).2
    = launched s ++ (if runnable then [GJob e] else []).
Proof.
  intros Hf Hq Hc. unfold drain_iter. rewrite Hf, Hq. simpl. rewrite Hc.
  assert (H2 : launched (exec_ops os1 (set_slot w l q s)) = launched s).
  { by rewrite exec_ops_launched, set_slot_launched. }
  destruct addable.
  - unfold roll_on. simpl. rewrite exec_ops_launched.
    unfold resolve_reset.
    destruct runnable;
      destruct (Status e _ =? StatusReset); simpl; rewrite H2;
      by rewrite ?app_nil_r.
  - destruct runnable; simpl; rewrite H2; by rewrite ?app_nil_r.
Qed.

Lemma drain_iteration_launches_the_job_witness :
  launched (drain_iter Sample.check0 Sample.doAdd0 0 5 5 1000 Sample.world0).2
    = launched Sample.world0 ++ [GJob 1%nat].
Proof.
  exact (drain_iteration_launches_the_job Sample.check0 Sample.doAdd0
           0 5 5 1000 Sample.world0 1%nat [2; 3]%nat true true []
           eq_refl eq_refl eq_refl).
Defined.

(** X3. Only the string "exit" is the cancellation signal: a job that
    panics with an error, whatever its message, fails, and the entry is not
    closed by the wrapper. *)
Theorem an_error_is_never_the_cancellation_signal
    (job : ptr -> JobFunc) (e : ptr) (s : World) (os : list op) (msg : string) :
  fatal s = None ->
  job e s = (os, Panicked (PError msg)) ->
  fatal (run_job job e s) = Some (PError msg) /\
  Status e (run_job job e s) = Status e (exec_ops os s).
Proof.
  intros Hf Hj.
  assert (Hne : PError msg <> PString gPanicExit) by discriminate.
  destruct (run_job_failed job e s os (PError msg) Hf Hj Hne) as [_ Hr].
  by rewrite Hr.
Qed.

Lemma an_error_is_never_the_cancellation_signal_witness :
  fatal (run_job (fun _ _ => ([], Panicked (PError "exit"))) 1%nat Sample.world0)
    = Some (PError "exit") /\
  Status 1%nat (run_job (fun _ _ => ([], Panicked (PError "exit"))) 1%nat Sample.world0)
    = Status 1%nat (exec_ops [] Sample.world0).
Proof.
  exact (an_error_is_never_the_cancellation_signal
           (fun _ _ => ([], Panicked (PError "exit"))) 1%nat Sample.world0 [] "exit"
           eq_refl eq_refl).
Defined.

(** * Command-line options: [doInit] and [Get] *)

(** ** The backtracking search *)

Section BacktrackFacts.
Context {R : Type}.
Implicit Types (p : regexp.cls) (s u r : list ascii) (caps : list (list ascii)).
Implicit Types (k : list ascii -> list (list ascii) -> option R).

Lemma consumed_app u r : regexp.consumed (u ++ r) r = u.
Proof.
  unfold regexp.consumed. rewrite length_app.
  replace (length u + length r - length r)%nat with (length u) by lia.
  by rewrite take_app_length.
Qed.

Lemma plus_lazy_inv p s caps k x :
  regexp.plus_lazy p s caps k = Some x ->
  exists u r, s = u ++ r /\ u <> [] /\
    Forall (fun c => regexp.cls_match p c = true) u /\ k r caps = Some x.
Proof.
  induction s as [|c s IH]; simpl; [done|].
  destruct (regexp.cls_match p c) eqn:Hc; [|done].
  destruct (k s caps) as [y|] eqn:Hk.
  - intros [= ->]. exists [c], s. repeat split; try done. by constructor.
  - intros H. destruct (IH H) as (u & r & -> & Hu & Hall & Hkr).
    exists (c :: u), r. repeat split; try done. by constructor.
Qed.

Lemma plus_greedy_inv p s caps k x :
  regexp.plus_greedy p s caps k = Some x ->
  exists u r, s = u ++ r /\ u <> [] /\
    Forall (fun c => regexp.cls_match p c = true) u /\ k r caps = Some x.
Proof.
  induction s as [|c s IH]; simpl; [done|].
  destruct (regexp.cls_match p c) eqn:Hc; [|done].
  destruct (regexp.plus_greedy p s caps k) as [y|] eqn:Hg.
  - intros [= ->]. destruct (IH eq_refl) as (u & r & -> & Hu & Hall & Hkr).
    exists (c :: u), r. repeat split; try done. by constructor.
  - intros Hk. exists [c], s. repeat split; try done. by constructor.
Qed.

(** The lazy repetition stops at the first place where what follows
    matches. *)
Lemma plus_lazy_first p u r caps k x :
  u <> [] ->
  Forall (fun c => regexp.cls_match p c = true) u ->
  (forall u1 u2, u = u1 ++ u2 -> u1 <> [] -> u2 <> [] -> k (u2 ++ r) caps = None) ->
  k r caps = Some x ->
  regexp.plus_lazy p (u ++ r) caps k = Some x.
Proof.
  induction u as [|c u IH]; [done|].
  intros _ Hall Hfail Hk. simpl.
  apply Forall_cons in Hall as [Hc Hall]. rewrite Hc.
  destruct u as [|c' u].
  - simpl. by rewrite Hk.
  - rewrite (Hfail [c] (c' :: u)) by done.
    apply IH; try done.
    intros u1 u2 Hu Hu1 Hu2. apply (Hfail (c :: u1) u2); try done.
    by rewrite Hu.
Qed.

(** Before a continuation that accepts anything, the greedy repetition
    takes every character up to the end. *)
Lemma plus_greedy_all p u caps k x :
  u <> [] ->
  Forall (fun c => regexp.cls_match p c = true) u ->
  k [] caps = Some x ->
  regexp.plus_greedy p u caps k = Some x.
Proof.
  induction u as [|c u IH]; [done|].
  intros _ Hall Hk. simpl.
  apply Forall_cons in Hall as [Hc Hall]. rewrite Hc.
  destruct u as [|c' u].
  - simpl. by rewrite Hk.
  - by rewrite IH.
Qed.

End BacktrackFacts.

(** ** The pattern of [doInit] *)

Lemma lit_match (a c : ascii) : regexp.cls_match (regexp.Lit a) c = true <-> a = c.
Proof. simpl. apply bool_decide_eq_true. Qed.

Section RegFacts.
Context {R : Type}.
Implicit Types (s : list ascii) (caps : list (list ascii)).
Implicit Types (k : list ascii -> list (list ascii) -> option R).

Lemma key_value_inv s caps k x :
  regexp.run key_value s caps k = Some x ->
  exists key value rest,
    s = key ++ "="%char :: value ++ rest /\
    key <> [] /\ Forall not_newline key /\
    value <> [] /\ Forall not_newline value /\
    k rest (<[2%nat := value]> (<[1%nat := key]> caps)) = Some x.
Proof.
  simpl. intros H.
  apply plus_lazy_inv in H as (key & r & -> & Hkey & Hkall & H).
  rewrite consumed_app in H. unfold regexp.once in H.
  destruct r as [|c r]; [done|].
  destruct (regexp.cls_match (regexp.Lit "=") c) eqn:Hc; [|done].
  apply lit_match in Hc as <-.
  apply plus_greedy_inv in H as (value & rest & -> & Hval & Hvall & H).
  rewrite consumed_app in H.
  by exists key, value, rest.
Qed.

Lemma reg_inv s caps k x :
  regexp.run cmdenv.reg s caps k = Some x ->
  exists dash key value rest,
    s = "-"%char :: dash ++ key ++ "="%char :: value ++ rest /\
    (dash = [] \/ dash = ["-"%char]) /\
    key <> [] /\ Forall not_newline key /\
    value <> [] /\ Forall not_newline value /\
    k rest (<[2%nat := value]> (<[1%nat := key]> caps)) = Some x.
Proof.
  unfold cmdenv.reg. fold key_value.
  change (regexp.run (regexp.Cat ?a (regexp.Cat ?b key_value)) s caps k)
    with (regexp.once (regexp.Lit "-") s caps
            (fun s1 caps1 => regexp.opt (regexp.Lit "-") s1 caps1
               (fun s2 caps2 => regexp.run key_value s2 caps2 k))).
  unfold regexp.once. destruct s as [|c s]; [done|].
  destruct (regexp.cls_match (regexp.Lit "-") c) eqn:Hc; [|done].
  apply lit_match in Hc as <-.
  intros H.
  assert (Hcases : (exists s', s = "-"%char :: s' /\ regexp.run key_value s' caps k = Some x)
                   \/ regexp.run key_value s caps k = Some x).
  { unfold regexp.opt in H. destruct s as [|c s]; [by right|].
    destruct (regexp.cls_match (regexp.Lit "-") c) eqn:Hc; [|by right].
    apply lit_match in Hc as <-.
    destruct (regexp.run key_value s caps k) eqn:Hr; [|by right].
    left. exists s. split; [done|]. by rewrite Hr. }
  destruct Hcases as [(s' & -> & Hr)|Hr];
    apply key_value_inv in Hr as (key & value & rest & -> & Hk & Hka & Hv & Hva & Hx).
  - exists ["-"%char], key, value, rest. repeat split; try done. by right.
  - exists [], key, value, rest. repeat split; try done. by left.
Qed.

End RegFacts.

(** Every match of the pattern has the shape dash, optional dash, key,
    sign, value, and captures the key and the value. *)
Lemma find_reg_inv (s : list ascii) (caps : list (list ascii)) :
  regexp.find 2 cmdenv.reg s = Some caps ->
  exists pre dash key value rest,
    s = pre ++ "-"%char :: dash ++ key ++ "="%char :: value ++ rest /\
    (dash = [] \/ dash = ["-"%char]) /\
    key <> [] /\ Forall not_newline key /\
    value <> [] /\ Forall not_newline value /\
    caps = ["-"%char :: dash ++ key ++ "="%char :: value; key; value].
Proof.
  induction s as [|c s IH].
  - simpl. done.
  - cbn [regexp.find].
    destruct (regexp.run cmdenv.reg (c :: s) _ _) as [caps'|] eqn:Hrun.
    + intros [= ->].
      apply reg_inv in Hrun
        as (dash & key & value & rest & Hs & Hd & Hk & Hka & Hv & Hva & Hx).
      exists [], dash, key, value, rest. simpl.
      repeat split; try done.
      injection Hx as <-. rewrite Hs. simpl.
      replace ("-"%char :: dash ++ key ++ "="%char :: value ++ rest)
        with (("-"%char :: dash ++ key ++ "="%char :: value) ++ rest)
        by (simpl; by rewrite <- !app_assoc).
      by rewrite consumed_app.
    + intros H. destruct (IH H)
        as (pre & dash & key & value & rest & -> & Hd & Hk & Hka & Hv & Hva & ->).
      by exists (c :: pre), dash, key, value, rest.
Qed.

Lemma consumed_all (u : list ascii) : regexp.consumed u [] = u.
Proof. rewrite <- (app_nil_r u) at 1. apply consumed_app. Qed.

Lemma key_value_complete {R : Type} (key value : list ascii)
    (caps : list (list ascii)) (k : list ascii -> list (list ascii) -> option R) (x : R) :
  key <> [] ->
  Forall (fun c => not_newline c /\ c <> "="%char) key ->
  value <> [] ->
  Forall not_newline value ->
  k [] (<[2%nat := value]> (<[1%nat := key]> caps)) = Some x ->
  regexp.run key_value (key ++ "="%char :: value) caps k = Some x.
Proof.
  intros Hk Hka Hv Hva Hx. simpl.
  apply plus_lazy_first.
  - done.
  - eapply Forall_impl; [exact Hka|]. by intros c [Hc _].
  - intros u1 u2 -> Hu1 Hu2.
    destruct u2 as [|c u2]; [done|]. simpl.
    apply Forall_app in Hka as [_ Hka].
    apply Forall_cons in Hka as [[_ Hc] _].
    destruct (bool_decide ("="%char = c)) eqn:Hd; [|done].
    apply bool_decide_eq_true in Hd. by subst.
  - rewrite consumed_app. simpl.
    apply plus_greedy_all; try done.
    by rewrite consumed_all.
Qed.

(** An argument whose first dash opens [-key=value] or [--key=value]
    matches there, with that key and that value. *)
Lemma find_reg_complete (pre dash key value : list ascii) :
  Forall (fun c => c <> "-"%char) pre ->
  (dash = ["-"%char] \/ (dash = [] /\ head key <> Some "-"%char)) ->
  key <> [] ->
  Forall (fun c => not_newline c /\ c <> "="%char) key ->
  value <> [] ->
  Forall not_newline value ->
  regexp.find 2 cmdenv.reg (pre ++ "-"%char :: dash ++ key ++ "="%char :: value)
    = Some ["-"%char :: dash ++ key ++ "="%char :: value; key; value].
Proof.
  intros Hpre Hdash Hk Hka Hv Hva.
  induction pre as [|c pre IH].
  - simpl app at 1.
    set (s := "-"%char :: dash ++ key ++ "="%char :: value).
    assert (Hrun : regexp.run cmdenv.reg s (replicate 3 [])
                     (fun s' caps => Some (<[0%nat := regexp.consumed s s']> caps))
                   = Some [s; key; value]).
    { unfold cmdenv.reg. fold key_value.
      change (regexp.run (regexp.Cat ?a (regexp.Cat ?b key_value)) s ?caps ?k)
        with (regexp.once (regexp.Lit "-") s caps
                (fun s1 caps1 => regexp.opt (regexp.Lit "-") s1 caps1
                   (fun s2 caps2 => regexp.run key_value s2 caps2 k))).
      unfold s at 1. unfold regexp.once.
      rewrite (proj2 (lit_match "-" "-") eq_refl).
      assert (Hkv : regexp.run key_value (key ++ "="%char :: value) (replicate 3 [])
                      (fun s' caps => Some (<[0%nat := regexp.consumed s s']> caps))
                    = Some [s; key; value]).
      { apply key_value_complete; try done. by rewrite consumed_all. }
      destruct Hdash as [->|[-> Hhd]].
      - simpl app. unfold regexp.opt.
        rewrite (proj2 (lit_match "-" "-") eq_refl). by rewrite Hkv.
      - simpl app. unfold regexp.opt.
        destruct key as [|c key]; [done|]. simpl app in *.
        destruct (regexp.cls_match (regexp.Lit "-") c) eqn:Hc.
        + apply lit_match in Hc as <-. by destruct Hhd.
        + rewrite Hc. exact Hkv. }
    unfold s in *. cbn [regexp.find]. by rewrite Hrun.
  - apply Forall_cons in Hpre as [Hc Hpre].
    simpl app. cbn [regexp.find].
    assert (Hnone : regexp.run cmdenv.reg
                      (c :: pre ++ "-"%char :: dash ++ key ++ "="%char :: value)
                      (replicate 3 [])
                      (fun s' caps =>
                         Some (<[0%nat := regexp.consumed
                                   (c :: pre ++ "-"%char :: dash ++ key ++ "="%char :: value)
                                   s']> caps))
                    = None).
    { unfold cmdenv.reg. cbn [regexp.run]. unfold regexp.once.
      destruct (regexp.cls_match (regexp.Lit "-") c) eqn:Hm; [|done].
      apply lit_match in Hm. by subst. }
    rewrite Hnone. by apply IH.
Qed.

(** ** From characters to strings *)

Lemma chars_app (a b : string) : chars (a +:+ b) = chars a ++ chars b.
Proof. induction a as [|c a IH]; simpl; [done|]. by rewrite IH. Qed.

Lemma text_app (a b : list ascii) : text (a ++ b) = (text a +:+ text b)%string.
Proof. induction a as [|c a IH]; simpl; [done|]. by rewrite IH. Qed.

Lemma text_chars (s : string) : text (chars s) = s.
Proof. apply String.string_of_list_ascii_of_string. Qed.

Lemma chars_text (l : list ascii) : chars (text l) = l.
Proof. apply String.list_ascii_of_string_of_list_ascii. Qed.

Lemma text_nil_inv (l : list ascii) : text l = ""%string -> l = [].
Proof. by destruct l. Qed.

Lemma doInit_arg_matched (opts : gmap string string) (arg : string)
    (whole key value : list ascii) :
  regexp.find 2 cmdenv.reg (chars arg) = Some [whole; key; value] ->
  cmdenv.doInit_arg opts arg = <[text key := text value]> opts.
Proof.
  intros H. unfold cmdenv.doInit_arg, regexp.FindStringSubmatch. by rewrite H.
Qed.

Lemma doInit_arg_unmatched (opts : gmap string string) (arg : string) :
  regexp.find 2 cmdenv.reg (chars arg) = None ->
  cmdenv.doInit_arg opts arg = opts.
Proof.
  intros H. unfold cmdenv.doInit_arg, regexp.FindStringSubmatch. by rewrite H.
Qed.

(** What one argument does to the options: nothing, or it sets the key it
    names, and then it has the shape the pattern asks for. *)
Lemma doInit_arg_shape (opts : gmap string string) (arg : string) :
  cmdenv.doInit_arg opts arg = opts \/
  exists pre dash key value rest : string,
    arg = (pre +:+ "-" +:+ dash +:+ key +:+ "=" +:+ value +:+ rest)%string /\
    (dash = ""%string \/ dash = "-"%string) /\
    key <> ""%string /\ Forall not_newline (chars key) /\
    value <> ""%string /\ Forall not_newline (chars value) /\
    cmdenv.doInit_arg opts arg = <[key := value]> opts.
Proof.
  destruct (regexp.find 2 cmdenv.reg (chars arg)) as [caps|] eqn:Hfind.
  - right.
    destruct (find_reg_inv _ _ Hfind)
      as (pre & dash & key & value & rest & Hs & Hd & Hk & Hka & Hv & Hva & ->).
    exists (text pre), (text dash), (text key), (text value), (text rest).
    split.
    { rewrite <- (text_chars arg), Hs.
      rewrite text_app. simpl. rewrite text_app, text_app. simpl.
      by rewrite text_app. }
    split; [destruct Hd as [->| ->]; [by left|by right]|].
    split; [intros H; by apply text_nil_inv in H|].
    split; [by rewrite chars_text|].
    split; [intros H; by apply text_nil_inv in H|].
    split; [by rewrite chars_text|].
    by apply (doInit_arg_matched opts arg _ _ _ Hfind).
  - left. by apply doInit_arg_unmatched.
Qed.

(** One argument acts on the options it is given as on the empty map, the
    options given showing through where it sets nothing. *)
Lemma doInit_arg_lookup (opts : gmap string string) (arg key : string) :
  cmdenv.doInit_arg opts arg !! key =
    match cmdenv.doInit_arg ∅ arg !! key with
    | Some v => Some v
    | None => opts !! key
    end.
Proof.
  unfold cmdenv.doInit_arg.
  destruct (1 <? length (regexp.FindStringSubmatch 2 cmdenv.reg arg))%nat.
  - set (k := default ""%string _). set (v := default ""%string _).
    destruct (decide (k = key)) as [->|Hne].
    + by rewrite !lookup_insert_eq.
    + by rewrite !lookup_insert_ne, lookup_empty.
  - by rewrite lookup_empty.
Qed.

Lemma doInit_snoc (args : list string) (arg : string) :
  cmdenv.doInit (args ++ [arg]) = cmdenv.doInit_arg (cmdenv.doInit args) arg.
Proof. unfold cmdenv.doInit. by rewrite foldl_app. Qed.

(** An option that is set was set by one of the arguments. *)
Lemma doInit_lookup_inv (args : list string) (key value : string) :
  cmdenv.doInit args !! key = Some value ->
  exists arg, arg ∈ args /\ cmdenv.doInit_arg ∅ arg !! key = Some value.
Proof.
  induction args as [|arg args IH] using rev_ind.
  - unfold cmdenv.doInit. simpl. by rewrite lookup_empty.
  - rewrite doInit_snoc, doInit_arg_lookup.
    destruct (cmdenv.doInit_arg ∅ arg !! key) as [v|] eqn:Harg.
    + intros [= ->]. exists arg. split; [|done].
      apply elem_of_app. right. apply list_elem_of_singleton. done.
    + intros H. destruct (IH H) as (a & Ha & Hset).
      exists a. split; [|done]. apply elem_of_app. by left.
Qed.

(** ** What [doInit] records *)

(** X4. An argument whose first dash opens [-key=value] or [--key=value]
    ([key] without sign or newline, and not starting with a dash after a
    single dash; [value] not empty and without newline) sets the option
    [key] to [value], replacing what the option held. *)
Theorem option_argument_is_recorded
    (opts : gmap string string) (pre dash key value : string) :
  Forall (fun c => c <> "-"%char) (chars pre) ->
  (dash = "-"%string \/ (dash = ""%string /\ head (chars key) <> Some "-"%char)) ->
  key <> ""%string ->
  Forall (fun c => not_newline c /\ c <> "="%char) (chars key) ->
  value <> ""%string ->
  Forall not_newline (chars value) ->
  cmdenv.doInit_arg opts (pre +:+ "-" +:+ dash +:+ key +:+ "=" +:+ value)
    = <[key := value]> opts.
Proof.
  intros Hpre Hdash Hk Hka Hv Hva.
  rewrite <- (text_chars key) at 2. rewrite <- (text_chars value) at 2.
  apply (doInit_arg_matched opts _
           ("-"%char :: chars dash ++ chars key ++ "="%char :: chars value)).
  rewrite chars_app. simpl. rewrite !chars_app. simpl.
  apply find_reg_complete; try done.
  - destruct Hdash as [->|[-> Hhd]]; [by left|by right].
  - intros H. apply Hk. rewrite <- (text_chars key). by rewrite H.
  - intros H. apply Hv. rewrite <- (text_chars value). by rewrite H.
Qed.

Lemma option_argument_is_recorded_witness :
  cmdenv.doInit_arg {["gf.gtimer.slots"%string := "5"%string]}
    ("" +:+ "-" +:+ "-" +:+ "gf.gtimer.slots" +:+ "=" +:+ "20")
    = <["gf.gtimer.slots"%string := "20"%string]>
        {["gf.gtimer.slots"%string := "5"%string]}.
Proof.
  apply (option_argument_is_recorded {["gf.gtimer.slots"%string := "5"%string]}
           "" "-" "gf.gtimer.slots" "20").
  - constructor.
  - by left.
  - discriminate.
  - repeat (constructor; [split; [reflexivity|discriminate]|]). constructor.
  - discriminate.
  - repeat (constructor; [reflexivity|]). constructor.
Defined.

(** X5. An argument without a dash, or without a sign, sets no option. *)
Theorem argument_without_dash_or_sign_is_ignored
    (opts : gmap string string) (arg : string) :
  "-"%char ∉ chars arg \/ "="%char ∉ chars arg ->
  cmdenv.doInit_arg opts arg = opts.
Proof.
  intros Hno.
  destruct (doInit_arg_shape opts arg)
    as [H|(pre & dash & key & value & rest & -> & _)]; [done|].
  exfalso. rewrite !chars_app in Hno. simpl in Hno.
  destruct Hno as [Hno|Hno]; apply Hno.
  - apply elem_of_app. right. apply list_elem_of_here.
  - apply elem_of_app. right. apply list_elem_of_further.
    apply elem_of_app. right. apply elem_of_app. right. apply list_elem_of_here.
Qed.

Lemma argument_without_dash_or_sign_is_ignored_witness :
  cmdenv.doInit_arg {["a"%string := "1"%string]} "/usr/bin/prog"
    = {["a"%string := "1"%string]}.
Proof.
  apply (argument_without_dash_or_sign_is_ignored {["a"%string := "1"%string]}
           "/usr/bin/prog").
  right. intros H. vm_compute in H.
  repeat (apply elem_of_cons in H as [H|H]; [discriminate H|]).
  by apply elem_of_nil in H.
Defined.



(** ** The two spellings of a key *)









(** ** [Get] after [doInit] *)

Lemma doInit_lookup_after (args1 args2 : list string) (arg key value : string) :
  cmdenv.doInit_arg ∅ arg !! key = Some value ->
  Forall (fun a => cmdenv.doInit_arg ∅ a !! key = None) args2 ->
  cmdenv.doInit (args1 ++ arg :: args2) !! key = Some value.
Proof.
  intros Harg. induction args2 as [|a args2 IH] using rev_ind; intros Hlater.
  - rewrite doInit_snoc, doInit_arg_lookup. by rewrite Harg.
  - apply Forall_app in Hlater as [Hlater Ha].
    apply Forall_cons in Ha as [Ha _].
    replace (args1 ++ arg :: args2 ++ [a]) with ((args1 ++ arg :: args2) ++ [a])
      by (by rewrite <- app_assoc).
    rewrite doInit_snoc, doInit_arg_lookup, Ha. by apply IH.
Qed.

(** X8. An option given on the command line as [--key=value], in the
    option spelling of the key [Get] is asked for, is what [Get] returns,
    whatever the environment holds and whatever default is passed, provided
    no later argument sets the same option; earlier arguments that set it
    are overridden. *)
Theorem Get_returns_the_last_option
    (args1 args2 : list string) (env : gmap string string)
    (key value : string) (def : list cmdenv.value) :
  let cmdKey := cmdenv.ToLower (cmdenv.Replace key "_" ".") in
  cmdKey <> ""%string ->
  Forall (fun c => not_newline c /\ c <> "="%char) (chars cmdKey) ->
  value <> ""%string ->
  Forall not_newline (chars value) ->
  Forall (fun a => cmdenv.doInit_arg ∅ a !! cmdKey = None) args2 ->
  cmdenv.Get
    (cmdenv.initialised (args1 ++ ("--" +:+ cmdKey +:+ "=" +:+ value)%string :: args2) env)
    key def
  = cmdenv.VString value.
Proof.
  intros cmdKey Hk Hka Hv Hva Hlater.
  assert (Harg : cmdenv.doInit_arg ∅ ("--" +:+ cmdKey +:+ "=" +:+ value)%string !! cmdKey
                 = Some value).
  { assert (Hfind : regexp.find 2 cmdenv.reg (chars ("--" +:+ cmdKey +:+ "=" +:+ value))
                    = Some ["-"%char :: ["-"%char] ++ chars cmdKey ++ "="%char :: chars value;
                            chars cmdKey; chars value]).
    { simpl. rewrite !chars_app. simpl.
      apply (find_reg_complete [] ["-"%char]); try done.
      - by left.
      - intros H. apply Hk. rewrite <- (text_chars cmdKey). by rewrite H.
      - intros H. apply Hv. rewrite <- (text_chars value). by rewrite H. }
    rewrite (doInit_arg_matched ∅ _ _ _ _ Hfind), !text_chars.
    by rewrite lookup_insert_eq. }
  unfold cmdenv.Get, cmdenv.initialised. simpl. fold cmdKey.
  by rewrite (doInit_lookup_after args1 args2 _ cmdKey value Harg Hlater).
Qed.

Lemma Get_returns_the_last_option_witness :
  cmdenv.Get
    (cmdenv.initialised
       (["prog"%string; "--gf.gtimer.slots=5"%string]
          ++ ("--" +:+ cmdenv.ToLower (cmdenv.Replace "GF_GTIMER_SLOTS" "_" ".")
                +:+ "=" +:+ "20")%string
          :: ["-x=1"%string])
       {["GF_GTIMER_SLOTS"%string := "30"%string]})
    "GF_GTIMER_SLOTS" [cmdenv.VInt 10]
  = cmdenv.VString "20".
Proof.
  apply (Get_returns_the_last_option ["prog"; "--gf.gtimer.slots=5"]%string
           ["-x=1"]%string {["GF_GTIMER_SLOTS"%string := "30"%string]}
           "GF_GTIMER_SLOTS" "20" [cmdenv.VInt 10]).
  - discriminate.
  - vm_compute. repeat (constructor; [split; [reflexivity|discriminate]|]). constructor.
  - discriminate.
  - repeat (constructor; [reflexivity|]). constructor.
  - constructor; [|constructor]. vm_compute. reflexivity.
Defined.

(** X9. After [doInit], [Get] never returns the empty string unless the
    default it was passed is the empty string: the value of an option is
    never empty and an empty environment variable is passed over. *)
Theorem Get_never_returns_an_empty_string
    (args : list string) (env : gmap string string)
    (key : string) (def : list cmdenv.value) :
  hd cmdenv.VNil def <> cmdenv.VString "" ->
  cmdenv.Get (cmdenv.initialised args env) key def <> cmdenv.VString "".
Proof.
  intros Hdef. unfold cmdenv.Get, cmdenv.initialised. simpl.
  destruct (cmdenv.doInit args !! _) as [v|] eqn:Hopt.
  - intros [= ->].
    apply doInit_lookup_inv in Hopt as (arg & _ & Hset).
    destruct (doInit_arg_shape ∅ arg)
      as [Hnone|(pre & dash & k & v & rest & _ & _ & _ & _ & Hv & _ & Hins)].
    + by rewrite Hnone, lookup_empty in Hset.
    + rewrite Hins in Hset.
      destruct (decide (k = cmdenv.ToLower (cmdenv.Replace key "_" "."))) as [->|Hne].
      * rewrite lookup_insert_eq in Hset. injection Hset as ->. done.
      * by rewrite lookup_insert_ne, lookup_empty in Hset.
  - destruct (decide (_ <> ""%string)) as [Hne|_].
    + intros [= H]. done.
    + by destruct def.
Qed.

Lemma Get_never_returns_an_empty_string_witness :
  cmdenv.Get (cmdenv.initialised ["prog"; "--a="; "-a"]%string {["A"%string := ""%string]})
    "a" [cmdenv.VInt 7]
  <> cmdenv.VString "".
Proof.
  apply (Get_never_returns_an_empty_string ["prog"; "--a="; "-a"]%string
           {["A"%string := ""%string]} "a" [cmdenv.VInt 7]).
  discriminate.
Defined.

(** * More on the dispatch loop *)

(** ** A tick on a well-formed wheel *)

(** On a well-formed wheel the index expression is in range: [proceed]
    stores the advanced counter and at most launches a drain. *)
Lemma proceed_shape (w : nat) (s : World) (wh : wheel) :
  wheels s !! w = Some wh ->
  number wh = Z.of_nat (length (slots wh)) ->
  0 < number wh ->
  0 <= ticks wh < MaxInt64 ->
  let s1 := set_wheels (<[w := set_ticks (ticks wh + 1) wh]> (wheels s)) s in
  proceed w s = s1 \/ exists g, proceed w s = go g s1.
Proof.
  intros Hw Hn Hpos Ht s1. unfold MaxInt64 in Ht.
  unfold proceed, gtype.Int64_Add. rewrite Hw.
  rewrite (wrap64_id (ticks wh + 1)) by lia. fold s1.
  destruct (number wh =? 0) eqn:Hz; [lia|].
  assert (Hm : 0 <= (ticks wh + 1) mod number wh < number wh)
    by (apply Z.mod_pos_bound; lia).
  unfold slot_index. rewrite rem_nonneg_mod by lia.
  unfold index. destruct ((ticks wh + 1) mod number wh <? 0) eqn:Hneg; [lia|].
  destruct (slots wh !! Z.to_nat ((ticks wh + 1) mod number wh)) as [l|] eqn:Hl.
  - destruct (0 <? Len l); [right; by eexists|by left].
  - apply lookup_ge_None in Hl. lia.
Qed.

Lemma wheel_ok_ticks (s : World) (w : nat) :
  wheel_ok s w -> exists wh, wheels s !! w = Some wh /\ wheel_ticks s w = ticks wh /\
    number wh = Z.of_nat (length (slots wh)) /\ 0 < number wh /\ 0 <= ticks wh.
Proof.
  intros (wh & Hw & Hn & Hpos & Ht). exists wh. unfold wheel_ticks. by rewrite Hw.
Qed.

(** X10. On a well-formed wheel (as many slots as [number] says, at least
    one, counter in range) a tick never panics, and it touches nothing but
    the wheel's counter and the list of launched goroutines: every slot of
    every wheel, every entry, the Timer's status and the other wheels are as
    before, and the wheel is still well formed. *)
Theorem tick_is_safe_and_only_moves_the_counter (w : nat) (s : World) :
  wheel_ok s w ->
  wheel_ticks s w < MaxInt64 ->
  fatal (proceed w s) = fatal s /\
  heap (proceed w s) = heap s /\
  timer_status (proceed w s) = timer_status s /\
  returned (proceed w s) = returned s /\
  (forall w' l, slot (proceed w s) w' l = slot s w' l) /\
  (forall w', w' <> w -> wheels (proceed w s) !! w' = wheels s !! w') /\
  wheel_ok (proceed w s) w.
Proof.
  intros Hok Hmax.
  destruct (wheel_ok_ticks s w Hok) as (wh & Hw & Hticks & Hn & Hpos & Ht).
  rewrite Hticks in Hmax.
  assert (Hlt : (w < length (wheels s))%nat) by (by eapply lookup_lt_Some).
  set (s1 := set_wheels (<[w := set_ticks (ticks wh + 1) wh]> (wheels s)) s).
  assert (Hslot1 : forall w' l, slot s1 w' l = slot s w' l).
  { intros w' l. unfold slot, s1. simpl.
    destruct (decide (w = w')) as [<-|Hne].
    - rewrite list_lookup_insert_eq by done. by rewrite Hw.
    - by rewrite list_lookup_insert_ne. }
  assert (Hok1 : wheel_ok s1 w).
  { exists (set_ticks (ticks wh + 1) wh). unfold s1. simpl.
    rewrite list_lookup_insert_eq by done. repeat split; try done. lia. }
  destruct (proceed_shape w s wh Hw Hn Hpos (conj Ht Hmax)) as [Hp|[g Hp]];
    fold s1 in Hp; rewrite Hp.
  - repeat split; try done.
    intros w' Hne. unfold s1. simpl. by rewrite list_lookup_insert_ne.
  - repeat split; try done.
    intros w' Hne. unfold s1. simpl. by rewrite list_lookup_insert_ne.
Qed.

Lemma tick_is_safe_and_only_moves_the_counter_witness :
  fatal (proceed 0 Sample.world0) = fatal Sample.world0 /\
  heap (proceed 0 Sample.world0) = heap Sample.world0 /\
  timer_status (proceed 0 Sample.world0) = timer_status Sample.world0 /\
  returned (proceed 0 Sample.world0) = returned Sample.world0 /\
  (forall w' l, slot (proceed 0 Sample.world0) w' l = slot Sample.world0 w' l) /\
  (forall w', w' <> 0%nat ->
     wheels (proceed 0 Sample.world0) !! w' = wheels Sample.world0 !! w') /\
  wheel_ok (proceed 0 Sample.world0) 0.
Proof.
  apply (tick_is_safe_and_only_moves_the_counter 0 Sample.world0).
  - exists Sample.wheel0. repeat split; try reflexivity. simpl. lia.
  - reflexivity.
Defined.

(** ** Counting the ticks of a loop *)








Example counter_sample_run :
  wheel_ticks
    (start 0 [[]; [OpTimerStatus StatusStopped]; []; [OpTimerStatus StatusRunning];
              [OpTimerStatus StatusClosed]; [OpTimerStatus StatusRunning]]
       Sample.world0) 0 = 6.
Proof. reflexivity. Qed.

(** ** One rotation *)

(** X12. The counter values of [number] consecutive ticks select every slot
    of the wheel exactly once: the indices computed by the index expression
    of [proceed] for the counters [t+1 .. t+number] are a rearrangement of
    [0 .. number-1]. *)
Theorem rotation_visits_every_slot_once (wh : wheel) (t : Z) :
  0 <= t ->
  0 < number wh ->
  (fun j : nat => slot_index (t + 1 + Z.of_nat j) wh) <$> seq 0 (Z.to_nat (number wh))
    ≡ₚ Z.of_nat <$> seq 0 (Z.to_nat (number wh)).
Proof.
  intros Ht Hn. set (n := number wh) in *.
  assert (Hidx : forall j : nat, slot_index (t + 1 + Z.of_nat j) wh
                                 = (t + 1 + Z.of_nat j) mod n).
  { intros j. unfold slot_index. apply rem_nonneg_mod; lia. }
  apply NoDup_Permutation.
  - apply NoDup_fmap_2_strong; [|apply NoDup_seq].
    intros i j Hi Hj. rewrite !Hidx.
    apply elem_of_seq in Hi. apply elem_of_seq in Hj. intros Heq.
    assert (H1 := Z.div_mod (t + 1 + Z.of_nat i) n).
    assert (H2 := Z.div_mod (t + 1 + Z.of_nat j) n).
    set (d := (t + 1 + Z.of_nat i) / n - (t + 1 + Z.of_nat j) / n).
    assert (Hd : Z.of_nat i - Z.of_nat j = n * d) by (unfold d; lia).
    assert (Hb : - n < Z.of_nat i - Z.of_nat j < n) by lia.
    assert (d = 0) by nia.
    subst d. lia.
  - apply NoDup_fmap_2; [intros i j; lia|apply NoDup_seq].
  - intros x. rewrite !list_elem_of_fmap. split.
    + intros (j & -> & Hj). rewrite Hidx.
      assert (Hm : 0 <= (t + 1 + Z.of_nat j) mod n < n) by (apply Z.mod_pos_bound; lia).
      exists (Z.to_nat ((t + 1 + Z.of_nat j) mod n)). split; [lia|].
      apply elem_of_seq. lia.
    + intros (i & -> & Hi). apply elem_of_seq in Hi.
      assert (Hm : 0 <= (Z.of_nat i - (t + 1)) mod n < n) by (apply Z.mod_pos_bound; lia).
      exists (Z.to_nat ((Z.of_nat i - (t + 1)) mod n)). split.
      * rewrite Hidx, Z2Nat.id by lia.
        rewrite Zplus_mod_idemp_r.
        replace (t + 1 + (Z.of_nat i - (t + 1))) with (Z.of_nat i) by lia.
        rewrite Z.mod_small; lia.
      * apply elem_of_seq. lia.
Qed.

Lemma rotation_visits_every_slot_once_witness :
  (fun j : nat => slot_index (4 + 1 + Z.of_nat j) Sample.wheel0)
    <$> seq 0 (Z.to_nat (number Sample.wheel0))
    ≡ₚ Z.of_nat <$> seq 0 (Z.to_nat (number Sample.wheel0)).
Proof.
  apply (rotation_visits_every_slot_once Sample.wheel0 4).
  - lia.
  - simpl. lia.
Defined.

(** ** What a drain leaves alone *)

Section DrainFrame.

Variable check : Z -> Z -> ptr -> World -> bool * bool * list op.
Variable doAddEntryByParent : Z -> ptr -> World -> list op.

Lemma resolve_reset_launched (e : ptr) (s : World) :
  launched (resolve_reset e s) = launched s.
Proof. unfold resolve_reset. by destruct (Status e s =? StatusReset). Qed.

(** One iteration, whatever it meets: another slot only gains what is
    pushed onto it, and at most the job of the entry processed is
    launched. *)
Lemma drain_iter_frame (w l : nat) (nowTicks nowMs : Z) (s : World) (w' l' : nat) :
  has_slot s w' l' ->
  ~ (w = w' /\ l = l') ->
  exists oe os s',
    drain_iter check doAddEntryByParent w l nowTicks nowMs s = (oe, os, s') /\
    has_slot s' w' l' /\
    slot s' w' l' = slot s w' l' ++ pushes_to w' l' os /\
    exists ran, sublist ran (option_list oe) /\ launched s' = launched s ++ (GJob <$> ran).
Proof.
  intros Hs Hne. unfold drain_iter.
  destruct (fatal s).
  { exists None, [], s. repeat split; try done; [by rewrite app_nil_r|].
    exists []. split; [done|]. by rewrite app_nil_r. }
  destruct (PopFront (slot s w l)) as [[e|] rest] eqn:Hpop.
  2:{ exists None, [], s. repeat split; try done; [by rewrite app_nil_r|].
      exists []. split; [done|]. by rewrite app_nil_r. }
  set (s1 := set_slot w l rest s).
  assert (Hs1 : has_slot s1 w' l') by (by apply has_slot_set_slot).
  assert (Hq1 : slot s1 w' l' = slot s w' l') by (by apply slot_set_slot_ne).
  assert (Hl1 : launched s1 = launched s) by apply set_slot_launched.
  destruct (check nowTicks nowMs e s1) as [[runnable addable] os1].
  set (s2 := exec_ops os1 s1).
  assert (Hs2 : has_slot s2 w' l') by (by apply exec_ops_has_slot).
  assert (Hq2 : slot s2 w' l' = slot s w' l' ++ pushes_to w' l' os1).
  { unfold s2. rewrite exec_ops_slot by done. by rewrite Hq1. }
  assert (Hl2 : launched s2 = launched s) by (unfold s2; by rewrite exec_ops_launched).
  set (s3 := if runnable then go (GJob e) s2 else s2).
  assert (Hw3 : wheels s3 = wheels s2) by (unfold s3; by destruct runnable).
  assert (Hl3 : exists ran, sublist ran [e] /\ launched s3 = launched s ++ (GJob <$> ran)).
  { unfold s3. destruct runnable.
    - exists [e]. split; [done|]. simpl. by rewrite Hl2.
    - exists []. split; [apply sublist_nil_l|]. simpl. by rewrite app_nil_r. }
  destruct Hl3 as (ran & Hran & Hl3).
  destruct addable.
  - unfold roll_on.
    destruct (resolve_reset_wheels e s3) as [Hw4 _].
    set (s4 := resolve_reset e s3) in *.
    set (os2 := doAddEntryByParent (rawIntervalMs (heap s4 e)) e s4).
    assert (Hs4 : has_slot s4 w' l').
    { apply (has_slot_ext s2); [|done]. by rewrite Hw4, Hw3. }
    exists (Some e), (os1 ++ os2), (exec_ops os2 s4).
    split; [done|]. split; [by apply exec_ops_has_slot|]. split.
    + rewrite exec_ops_slot by done.
      rewrite (slot_ext s4 s2) by (by rewrite Hw4, Hw3).
      by rewrite Hq2, pushes_to_app, app_assoc.
    + exists ran. split; [done|].
      rewrite exec_ops_launched. unfold s4. by rewrite resolve_reset_launched.
  - exists (Some e), os1, s3. split; [done|].
    split; [by apply (has_slot_ext s2)|]. split.
    + by rewrite (slot_ext s3 s2).
    + by exists ran.
Qed.

Lemma drain_loop_frame (i : nat) (w l : nat) (nowTicks nowMs : Z) (w' l' : nat) :
  ~ (w = w' /\ l = l') ->
  forall (env : list (list op)) (s : World),
    has_slot s w' l' ->
    exists es os s',
      drain_loop check doAddEntryByParent i w l nowTicks nowMs env s = (es, os, s') /\
      (length es <= i)%nat /\
      slot s' w' l' = slot s w' l' ++ pushes_to w' l' os /\
      exists ran, sublist ran es /\ launched s' = launched s ++ (GJob <$> ran).
Proof.
  intros Hne. induction i as [|i IH]; intros env s Hs.
  - exists [], [], s. simpl. repeat split; try done; [by rewrite app_nil_r|].
    exists []. split; [done|]. by rewrite app_nil_r.
  - simpl drain_loop.
    set (os := hd [] env). set (s0 := exec_ops os s).
    assert (Hs0 : has_slot s0 w' l') by (by apply exec_ops_has_slot).
    assert (Hq0 : slot s0 w' l' = slot s w' l' ++ pushes_to w' l' os)
      by (by apply exec_ops_slot).
    assert (Hl0 : launched s0 = launched s) by apply exec_ops_launched.
    destruct (drain_iter_frame w l nowTicks nowMs s0 w' l' Hs0 Hne)
      as (oe & os1 & s1 & Hit & Hs1 & Hq1 & ran1 & Hran1 & Hl1).
    rewrite Hit. destruct oe as [e|].
    + destruct (IH (tl env) s1 Hs1)
        as (es & os2 & s2 & Hloop & Hlen & Hq2 & ran2 & Hran2 & Hl2).
      rewrite Hloop. exists (e :: es), (os ++ os1 ++ os2), s2.
      split; [done|]. split; [simpl; lia|]. split.
      * rewrite Hq2, Hq1, Hq0, !pushes_to_app. by rewrite <- !app_assoc.
      * exists (ran1 ++ ran2). split.
        -- change (e :: es) with ([e] ++ es). by apply sublist_app.
        -- rewrite Hl2, Hl1, Hl0, fmap_app. by rewrite <- app_assoc.
    + exists [], (os ++ os1), s1.
      split; [done|]. split; [simpl; lia|]. split.
      * rewrite Hq1, Hq0, pushes_to_app. by rewrite <- app_assoc.
      * exists []. split; [done|]. simpl in Hran1.
        apply sublist_nil_r in Hran1 as ->. simpl in *.
        by rewrite Hl1, Hl0.
Qed.

End DrainFrame.

Section DrainLaunches.

Variable check : Z -> Z -> ptr -> World -> bool * bool * list op.
Variable doAddEntryByParent : Z -> ptr -> World -> list op.

Lemma drain_iter_launched (w l : nat) (nowTicks nowMs : Z) (s : World) :
  exists oe os s',
    drain_iter check doAddEntryByParent w l nowTicks nowMs s = (oe, os, s') /\
    exists ran, sublist ran (option_list oe) /\ launched s' = launched s ++ (GJob <$> ran).
Proof.
  unfold drain_iter.
  destruct (fatal s).
  { exists None, [], s. split; [done|]. exists []. split; [done|]. by rewrite app_nil_r. }
  destruct (PopFront (slot s w l)) as [[e|] rest] eqn:Hpop.
  2:{ exists None, [], s. split; [done|]. exists []. split; [done|]. by rewrite app_nil_r. }
  destruct (check nowTicks nowMs e (set_slot w l rest s)) as [[runnable addable] os1].
  set (s2 := exec_ops os1 (set_slot w l rest s)).
  assert (Hl2 : launched s2 = launched s).
  { unfold s2. by rewrite exec_ops_launched, set_slot_launched. }
  set (s3 := if runnable then go (GJob e) s2 else s2).
  assert (Hl3 : exists ran, sublist ran [e] /\ launched s3 = launched s ++ (GJob <$> ran)).
  { unfold s3. destruct runnable.
    - exists [e]. split; [done|]. simpl. by rewrite Hl2.
    - exists []. split; [apply sublist_nil_l|]. simpl. by rewrite app_nil_r. }
  destruct Hl3 as (ran & Hran & Hl3).
  destruct addable.
  - unfold roll_on. eexists (Some e), _, _. split; [done|].
    exists ran. split; [done|].
    by rewrite exec_ops_launched, resolve_reset_launched.
  - exists (Some e), os1, s3. split; [done|]. by exists ran.
Qed.

(** X14. A drain processes at most as many entries as the length
    [proceed] read, and the goroutines it launches are jobs of entries it
    processed, in the order it processed them and at most one per entry: it
    launches nothing else and no job twice. *)
Theorem drain_launches_only_jobs_it_drained
    (i : nat) (w l : nat) (nowTicks nowMs : Z) (env : list (list op)) (s : World) :
  let '(es, os, s') :=
    drain_loop check doAddEntryByParent i w l nowTicks nowMs env s in
  (length es <= i)%nat /\
  exists ran, sublist ran es /\ launched s' = launched s ++ (GJob <$> ran).
Proof.
  revert env s. induction i as [|i IH]; intros env s.
  - simpl. split; [done|]. exists []. split; [done|]. by rewrite app_nil_r.
  - simpl drain_loop.
    set (s0 := exec_ops (hd [] env) s).
    assert (Hl0 : launched s0 = launched s) by apply exec_ops_launched.
    destruct (drain_iter_launched w l nowTicks nowMs s0)
      as (oe & os1 & s1 & Hit & ran1 & Hran1 & Hl1).
    rewrite Hit. destruct oe as [e|].
    + specialize (IH (tl env) s1).
      destruct (drain_loop check doAddEntryByParent i w l nowTicks nowMs (tl env) s1)
        as [[es os2] s2].
      destruct IH as (Hlen & ran2 & Hran2 & Hl2).
      split; [simpl; lia|].
      exists (ran1 ++ ran2). split.
      * change (e :: es) with ([e] ++ es). by apply sublist_app.
      * rewrite Hl2, Hl1, Hl0, fmap_app. by rewrite <- app_assoc.
    + split; [simpl; lia|]. exists []. split; [done|].
      simpl in Hran1. apply sublist_nil_r in Hran1 as ->. simpl in *.
      by rewrite Hl1, Hl0.
Qed.

(** X13. A drain pops its own slot only: any other slot, of the same
    wheel or of another, holds afterwards what it held before followed by
    the entries pushed onto it meanwhile, whether the drain ran to its end,
    stopped on an empty slot or was cut short. *)
Theorem drain_never_pops_another_slot
    (i : nat) (w l : nat) (nowTicks nowMs : Z) (env : list (list op)) (s : World)
    (w' l' : nat) :
  has_slot s w' l' ->
  ~ (w = w' /\ l = l') ->
  let '(es, os, s') :=
    drain_loop check doAddEntryByParent i w l nowTicks nowMs env s in
  slot s' w' l' = slot s w' l' ++ pushes_to w' l' os.
Proof.
  intros Hs Hne.
  destruct (drain_loop_frame check doAddEntryByParent i w l nowTicks nowMs w' l' Hne env s Hs)
    as (es & os & s' & Hloop & _ & Hq & _).
  by rewrite Hloop.
Qed.

End DrainLaunches.

Lemma drain_never_pops_another_slot_witness :
  let '(es, os, s') :=
    drain_loop Sample.check0 (fun _ e _ => [OpPush 0 6 e]) 3 0 5 5 1000
      [[OpPush 0 6 9%nat]] (proceed 0 Sample.world0) in
  slot s' 0 6 = slot (proceed 0 Sample.world0) 0 6 ++ pushes_to 0 6 os.
Proof.
  apply (drain_never_pops_another_slot Sample.check0 (fun _ e _ => [OpPush 0 6 e])
           3 0 5 5 1000 [[OpPush 0 6 9%nat]] (proceed 0 Sample.world0) 0 6).
  - exists (set_ticks 5 Sample.wheel0). split; [reflexivity|]. simpl. lia.
  - intros [_ H]. discriminate H.
Defined.

(** The run of the witness: the entries of slot 5 roll on into slot 6,
    behind the entry pushed there by another goroutine. *)
Example drain_other_slot_run :
  let '(es, os, s') :=
    drain_loop Sample.check0 (fun _ e _ => [OpPush 0 6 e]) 3 0 5 5 1000
      [[OpPush 0 6 9%nat]] (proceed 0 Sample.world0) in
  es = [1; 2; 3]%nat /\ slot s' 0 5 = [] /\ slot s' 0 6 = [9; 1; 2; 3]%nat.
Proof. vm_compute. done. Qed.

(** ** After an invocation *)

(** X15. When a job invocation returns or ends with the cancellation
    signal, the wrapper never leaves the entry [Running], whatever the job
    did to the entry meanwhile, and the process goes on. *)
Theorem completed_job_is_not_left_running
    (job : ptr -> JobFunc) (e : ptr) (s : World) (os : list op) (out : outcome) :
  fatal s = None ->
  job e s = (os, out) ->
  out = Returned \/ out = Exit ->
  Status e (run_job job e s) <> StatusRunning /\
  fatal (run_job job e s) = None.
Proof.
  intros Hf Hj Hout. unfold run_job. rewrite Hf, Hj.
  destruct Hout as [->| ->]; unfold Exit, job_deferred.
  - destruct (Status e (exec_ops os s) =? StatusRunning) eqn:Hst.
    + rewrite SetStatus_Status. split; [done|]. simpl. by rewrite exec_ops_fatal.
    + apply Z.eqb_neq in Hst. split; [done|]. by rewrite exec_ops_fatal.
  - destruct (decide (PString gPanicExit <> PString gPanicExit)) as [Hne|_]; [done|].
    unfold Close. rewrite SetStatus_Status. simpl.
    rewrite SetStatus_Status. split; [done|]. by rewrite exec_ops_fatal.
Qed.

Lemma completed_job_is_not_left_running_witness :
  Status 7%nat (run_job Sample.job_returns 7%nat Sample.world0) <> StatusRunning /\
  fatal (run_job Sample.job_returns 7%nat Sample.world0) = None.
Proof.
  apply (completed_job_is_not_left_running Sample.job_returns 7%nat Sample.world0
           [] Returned).
  - reflexivity.
  - reflexivity.
  - by left.
Defined.
